(** * linkinator: the link extractor and the crawl engine

    A shallow embedding of [src/links.ts] (attribute parsing, link
    resolution) and of the [LinkChecker] class ([check], [crawl], [isHtml]),
    with the properties of the crawl stated over the interleavings of its
    asynchronous tasks.

    Conventions.
    - A JavaScript string is a [string]; its characters stand for the code
      units 0..255.
    - An exception is a [None] result; an absent (undefined) field is a
      [None] field.
    - The platform services the code consumes as black boxes are parameters
      of the sections that need them: the WHATWG [URL] constructor, the
      regular-expression engine behind [new RegExp(p).test(s)], the HTML
      parser [cheerio.load], and the HTTP transport, whose replies are the
      labels of the transitions. *)

From Stdlib Require Import Ascii String ZArith Lia.
From stdpp Require Import base decidable option list strings pretty gmap sets.

Local Open Scope string_scope.

(** ** JavaScript string primitives *)

Module JS.

(** Code units that [String.prototype.trim] strips and that [\s] matches,
    among 0..255: TAB, LF, VT, FF, CR, SPACE, NBSP. *)
Definition is_white_space (c : ascii) : bool :=
  match Ascii.nat_of_ascii c with
  | 9 | 10 | 11 | 12 | 13 | 32 | 160 => true
  | _ => false
  end.

(** Line terminators among 0..255 (the characters [.] does not match). *)
Definition is_line_terminator (c : ascii) : bool :=
  match Ascii.nat_of_ascii c with
  | 10 | 13 => true
  | _ => false
  end.

(** [s.split(sep)] for a one-character separator: never an empty array. *)
Fixpoint split (sep : ascii) (s : string) : list string :=
  match s with
  | EmptyString => [EmptyString]
  | String c s' =>
      if Ascii.eqb c sep then EmptyString :: split sep s'
      else match split sep s' with
           | h :: t => String c h :: t
           | [] => [String c EmptyString]
           end
  end.

Fixpoint trimStart (s : string) : string :=
  match s with
  | String c s' => if is_white_space c then trimStart s' else s
  | EmptyString => EmptyString
  end.

Fixpoint trimEnd (s : string) : string :=
  match s with
  | EmptyString => EmptyString
  | String c s' =>
      match trimEnd s' with
      | EmptyString => if is_white_space c then EmptyString else String c EmptyString
      | t => String c t
      end
  end.

Definition trim (s : string) : string := trimEnd (trimStart s).

(** [s.split(/\s+/)[0]]: the characters before the first white-space run. *)
Fixpoint split_ws_first (s : string) : string :=
  match s with
  | EmptyString => EmptyString
  | String c s' => if is_white_space c then EmptyString else String c (split_ws_first s')
  end.

(** [s.startsWith(p)] *)
Definition startsWith (s p : string) : bool := String.prefix p s.

(** [!!s.match(/lit/g)] for a pattern that is a literal: [lit] occurs in [s]. *)
Fixpoint includes (lit s : string) : bool :=
  String.prefix lit s ||
  match s with
  | EmptyString => false
  | String _ s' => includes lit s'
  end.

(** Truthiness of a string: [!!s]. *)
Definition truthy (s : string) : bool :=
  match s with EmptyString => false | _ => true end.

(** The first [n] characters of [s]. *)
Fixpoint take (n : nat) (s : string) : string :=
  match n, s with
  | S n', String c s' => String c (take n' s')
  | _, _ => EmptyString
  end.

(** The text consumed between a position [s] and a later position [s']
    (both are suffixes of the subject). *)
Definition consumed (s s' : string) : string :=
  take (String.length s - String.length s') s.

(** Every character of [s] satisfies [p]. *)
Fixpoint every (p : ascii -> bool) (s : string) : bool :=
  match s with
  | EmptyString => true
  | String c s' => p c && every p s'
  end.

End JS.

(** ** A backtracking matcher for the regular expressions of the source

    Quantifiers are applied to character classes only, as in the source's
    patterns, which keeps the matcher structurally recursive.  Alternatives
    are tried left to right, greedy quantifiers longest first, lazy ones
    shortest first, as ECMAScript prescribes. *)

Module Regex.

Inductive regex : Type :=
| Lit (c : ascii)                 (* a literal character *)
| Class (p : ascii -> bool)       (* [.] or a bracket class *)
| Eps                             (* the empty alternative *)
| Cat (r1 r2 : regex)
| Alt (r1 r2 : regex)
| Group (n : nat) (r : regex)     (* capturing group number n *)
| Opt (r : regex)                 (* r?  greedy *)
| Star (p : ascii -> bool)        (* class*  greedy *)
| PlusLazy (p : ascii -> bool).   (* class+? lazy *)

(** Captures: group number to captured text; absent means undefined. *)
Definition captures := list (nat * string).

Definition capture (n : nat) (caps : captures) : option string :=
  snd <$> List.find (fun e => Nat.eqb (fst e) n) caps.

Section Matcher.
Context {R : Type}.

Definition orElse (a : option R) (b : unit -> option R) : option R :=
  match a with Some x => Some x | None => b tt end.

Fixpoint star (p : ascii -> bool) (s : string) (k : string -> option R) : option R :=
  match s with
  | String c s' => if p c then orElse (star p s' k) (fun _ => k s) else k s
  | EmptyString => k s
  end.

Fixpoint lazy_star (p : ascii -> bool) (s : string) (k : string -> option R) : option R :=
  orElse (k s) (fun _ =>
    match s with
    | String c s' => if p c then lazy_star p s' k else None
    | EmptyString => None
    end).

Definition plus_lazy (p : ascii -> bool) (s : string) (k : string -> option R) : option R :=
  match s with
  | String c s' => if p c then lazy_star p s' k else None
  | EmptyString => None
  end.

(** [run r s caps k]: match [r] at the position [s], then continue with
    [k]; [None] makes the matcher backtrack. *)
Fixpoint run (r : regex) (s : string) (caps : captures)
         (k : string -> captures -> option R) : option R :=
  match r with
  | Lit c =>
      match s with
      | String c' s' => if Ascii.eqb c c' then k s' caps else None
      | EmptyString => None
      end
  | Class p =>
      match s with
      | String c' s' => if p c' then k s' caps else None
      | EmptyString => None
      end
  | Eps => k s caps
  | Cat r1 r2 => run r1 s caps (fun s1 caps1 => run r2 s1 caps1 k)
  | Alt r1 r2 => orElse (run r1 s caps k) (fun _ => run r2 s caps k)
  | Group n r1 =>
      run r1 s caps (fun s1 caps1 => k s1 ((n, JS.consumed s s1) :: caps1))
  | Opt r1 =>
      (* an iteration that consumes nothing is rejected (RepeatMatcher) *)
      orElse
        (run r1 s caps (fun s1 caps1 =>
           if Nat.eqb (String.length s1) (String.length s) then None else k s1 caps1))
        (fun _ => k s caps)
  | Star p => star p s (fun s1 => k s1 caps)
  | PlusLazy p => plus_lazy p s (fun s1 => k s1 caps)
  end.
End Matcher.

(** A match of [^r] (no multiline flag): the captures and the text that
    follows the match. *)
Definition exec_anchored (r : regex) (s : string) : option (captures * string) :=
  run r s [] (fun rest caps => Some (caps, rest)).

Fixpoint lits (s : string) : regex :=
  match s with
  | EmptyString => Eps
  | String c s' => Cat (Lit c) (lits s')
  end.

(** The numbers of the capturing groups of a pattern. *)
Fixpoint groups (r : regex) : list nat :=
  match r with
  | Group n r1 => n :: groups r1
  | Cat r1 r2 | Alt r1 r2 => groups r1 ++ groups r2
  | Opt r1 => groups r1
  | _ => []
  end.

(** The language of a pattern: the texts it can consume. *)
Inductive matches : regex -> string -> Prop :=
| matches_Lit c : matches (Lit c) (String c EmptyString)
| matches_Class p c : p c = true -> matches (Class p) (String c EmptyString)
| matches_Eps : matches Eps EmptyString
| matches_Cat r1 r2 a b : matches r1 a -> matches r2 b -> matches (Cat r1 r2) (a ++ b)
| matches_Alt_l r1 r2 a : matches r1 a -> matches (Alt r1 r2) a
| matches_Alt_r r1 r2 a : matches r2 a -> matches (Alt r1 r2) a
| matches_Group n r a : matches r a -> matches (Group n r) a
| matches_Opt_none r : matches (Opt r) EmptyString
| matches_Opt_some r a : matches r a -> matches (Opt r) a
| matches_Star p a : JS.every p a = true -> matches (Star p) a
| matches_PlusLazy p c a :
    p c = true -> JS.every p a = true -> matches (PlusLazy p) (String c a).

End Regex.

(** ** The WHATWG URL object, as far as the source reads it *)

Record URL : Type := {
  serialized : string;          (* the serialization up to, not including, the fragment *)
  host : string;                (* [url.host] *)
  fragment : option string;     (* [None] when the URL has no fragment *)
}.

(** [url.href] *)
Definition href (u : URL) : string :=
  serialized u ++ match fragment u with Some f => "#" ++ f | None => "" end.

(** [url.hash = ''] sets the fragment to null. *)
Definition clear_hash (u : URL) : URL :=
  {| serialized := serialized u; host := host u; fragment := None |}.

(** ** src/links.ts *)

Module Links.

(** [AttributeRules]: an object used as an ordered table from attribute
    name to the tags that carry it. *)
Definition AttributeRules := list (string * list string).

Definition getBaseLinkAttributes : AttributeRules :=
  [ ("background", ["body"]);
    ("cite", ["blockquote"; "del"; "ins"; "q"]);
    ("data", ["object"]);
    ("href", ["a"; "area"; "embed"; "link"]);
    ("icon", ["command"]);
    ("longdesc", ["frame"; "iframe"]);
    ("manifest", ["html"]);
    ("poster", ["video"]);
    ("pluginspage", ["embed"]);
    ("pluginurl", ["embed"]);
    ("src", ["audio"; "embed"; "frame"; "iframe"; "img"; "input"; "script";
             "source"; "track"; "video"]);
    ("srcset", ["img"; "source"]);
    ("style", [""]) ].

Inductive Error : Type := InvalidURL.

Record ParsedUrl : Type := {
  link : string;
  error : option Error;
  url : option URL;
}.

Import Regex.

Definition is_alpha (c : ascii) : bool :=
  let n := Ascii.nat_of_ascii c in
  (Nat.leb 65 n && Nat.leb n 90) || (Nat.leb 97 n && Nat.leb n 122).

Definition is_digit (c : ascii) : bool :=
  let n := Ascii.nat_of_ascii c in Nat.leb 48 n && Nat.leb n 57.

(** [/^[a-zA-Z]:\\/] *)
Definition windowsPathRegexp : regex :=
  Cat (Class is_alpha) (Cat (Lit ":") (Lit "\")).

(** [/^[a-zA-Z][a-zA-Z\d+\-.]*:/] *)
Definition schemeRegexp : regex :=
  Cat (Class is_alpha)
      (Cat (Star (fun c => is_alpha c || is_digit c || Ascii.eqb c "+"
                           || Ascii.eqb c "-" || Ascii.eqb c "."))
           (Lit ":")).

Definition isAbsoluteUrl (u : string) : bool :=
  if bool_decide (is_Some (exec_anchored windowsPathRegexp u)) then false
  else bool_decide (is_Some (exec_anchored schemeRegexp u)).

Definition single_quote : ascii := "'"%char.
Definition double_quote : ascii := "034"%char.

(** The alternation inside the quote groups: a single quote, a double
    quote, or nothing. *)
Definition quoteAlt : regex := Alt (Lit single_quote) (Alt (Lit double_quote) Eps).

(** [/^.*url\((Q)?([^)]+?)(Q)?\).*/], with Q the alternation above. *)
Definition urlValueRegexp : regex :=
  Cat (Star (fun c => negb (JS.is_line_terminator c)))
 (Cat (lits "url(")
 (Cat (Opt (Group 1 quoteAlt))
 (Cat (Group 2 (PlusLazy (fun c => negb (Ascii.eqb c ")"))))
 (Cat (Opt (Group 3 quoteAlt))
 (Cat (Lit ")")
      (Star (fun c => negb (JS.is_line_terminator c)))))))).

(** [value.replace(urlValueRegexp, '$2')]: the pattern is anchored, so the
    match, if any, starts the string; what follows the match is kept. *)
Definition replace_with_group2 (value : string) : string :=
  match exec_anchored urlValueRegexp value with
  | Some (caps, rest) => default "" (capture 2 caps) ++ rest
  | None => value
  end.

(** The callback mapped over the declarations of a [style] value.  [None]
    is the TypeError of [value.match] on an undefined [value]. *)
Definition styleRule (rules : string) : option string :=
  if negb (JS.truthy rules) then Some ""
  else
    let parts := JS.split ":" rules in
    let attr := default "" (head parts) in
    let value := head (tail parts) in
    if bool_decide (JS.trim attr ∈ ["background"; "background-image"]) then
      match value with
      | None => None
      | Some v =>
          if bool_decide (is_Some (exec_anchored urlValueRegexp v))
          then Some (replace_with_group2 v)
          else Some ""
      end
    else Some "".

Definition parseAttr (name value : string) : option (list string) :=
  if String.eqb name "style" then
    mapM styleRule (filter (fun val => JS.truthy val = true) (JS.split ";" value))
  else if String.eqb name "srcset" then
    Some (map (fun pair => JS.split_ws_first (JS.trim pair)) (JS.split "," value))
  else Some [value].

(** A name the selector engine reads as a type selector or as an attribute
    name, spelled as the HTML parser spells tags and attributes: a
    lower-case letter, then lower-case letters, digits and [-]. *)
Definition is_lower (c : ascii) : bool :=
  let n := Ascii.nat_of_ascii c in Nat.leb 97 n && Nat.leb n 122.

Fixpoint all_chars (p : ascii -> bool) (s : string) : bool :=
  match s with
  | EmptyString => true
  | String c s' => p c && all_chars p s'
  end.

Definition plain_name (s : string) : bool :=
  match s with
  | String c s' =>
      is_lower c && all_chars (fun c => is_lower c || is_digit c || Ascii.eqb c "-") s'
  | EmptyString => false
  end.

(** Rules on which [select] below stands for the selector engine: every
    attribute is a plain name, every tag a plain name or ['']. *)
Definition plain_rules (linksAttr : AttributeRules) : bool :=
  forallb (fun rule : string * list string =>
             plain_name (fst rule)
             && forallb (fun tag => negb (JS.truthy tag) || plain_name tag) (snd rule))
          linksAttr.

Section WithPlatform.

(** [new URL(input)] and [new URL(input, base)]; [None] when it throws. *)
Variable URL_new : string -> option string -> option URL.

Definition parseLink (lnk baseUrl : string) : ParsedUrl :=
  match URL_new lnk (Some baseUrl) with
  | Some u => {| link := lnk; error := None; url := Some (clear_hash u) |}
  | None => {| link := lnk; error := Some InvalidURL; url := None |}
  end.

Definition getBaseUrl (htmlBaseUrl oldBaseUrl : string) : option string :=
  if isAbsoluteUrl htmlBaseUrl then Some htmlBaseUrl
  else u ← URL_new htmlBaseUrl (Some oldBaseUrl); Some (href (clear_hash u)).

(** An element of the parsed document. *)
Record Element : Type := {
  tagName : string;
  attribs : list (string * string);
}.

Definition attrib (a : string) (e : Element) : option string :=
  snd <$> List.find (fun kv => String.eqb (fst kv) a) (attribs e).

(** [cheerio.load(source)]: the elements of the document, in document order. *)
Variable cheerio_load : string -> list Element.

(** [$(tags.map(tag => `${tag}[${attr}]`).join(','))]: the elements that
    carry [attr] and whose tag is listed (the tag [''] gives the selector
    [[attr]], which any tag matches).  This is what the selector engine
    does when [attr] and the tags are plain names, as in
    [getBaseLinkAttributes()]; see [plain_rules].  Other names make other
    selectors (a combinator, a class, a list) or none that parses, and are
    outside this definition. *)
Definition select (tags : list string) (attr : string) (doc : list Element) : list Element :=
  filter (fun e => is_Some (attrib attr e) ∧
                   Exists (fun tag => tag = "" ∨ tag = tagName e) tags) doc.

(** The raw tokens pushed by the [forEach] over the rules. *)
Definition collect (doc : list Element) (linksAttr : AttributeRules) : option (list string) :=
  mjoin <$> mapM (fun rule : string * list string =>
    let (attr, tags) := rule in
    mjoin <$> mapM (fun e => parseAttr attr (default "" (attrib attr e)))
                    (select tags attr doc)) linksAttr.

Definition getLinks (source baseUrl : string) (linksAttr : AttributeRules)
  : option (list ParsedUrl) :=
  let doc := cheerio_load source in
  links ← collect doc linksAttr;
  realBaseUrl ←
    match head (select ["base"] "href" doc) with
    | Some base =>
        let htmlBaseUrl := default "" (attrib "href" base) in
        if JS.truthy htmlBaseUrl then getBaseUrl htmlBaseUrl baseUrl
        else Some baseUrl
    | None => Some baseUrl
    end;
  Some (map (fun l => parseLink l realBaseUrl)
            (filter (fun l => JS.truthy l = true) links)).

(** A call of [getLinks] from JavaScript, where the third argument may be
    missing: [Object.keys(undefined)] throws at line 50, before any
    element is read.  [crawl] calls it so (part_000, line 190). *)
Definition getLinks_call (source baseUrl : string) (linksAttr : option AttributeRules)
  : option (list ParsedUrl) :=
  match linksAttr with
  | Some rules => getLinks source baseUrl rules
  | None => None
  end.

End WithPlatform.

End Links.

(** ** The crawl engine: the [LinkChecker] class *)

Module Checker.

Record CheckOptions : Type := {
  concurrency : option Z;
  port : option Z;
  path : string;
  recurse : option bool;
  linksToSkip : option (list string);
}.

Inductive LinkState : Type := OK | BROKEN | SKIPPED.

Record LinkResult : Type := {
  url : string;
  status : option Z;
  state : LinkState;
  parent : option string;
}.

Record CrawlResult : Type := {
  passed : bool;
  links : list LinkResult;
}.

(** [CrawlOptions], without its references to the shared objects
    ([results], [cache], [checkOptions], [queue]), which live in [Run]. *)
Record CrawlOptions : Type := {
  opts_url : string;
  opts_parent : option string;
  opts_crawl : bool;
}.

#[global] Instance LinkState_eq_dec : EqDecision LinkState.
Proof. solve_decision. Defined.

(** *** The transport (gaxios) *)

Inductive Method : Type := GET | HEAD.
Inductive ResponseType : Type := text | stream.

Record Request : Type := {
  method : Method;
  req_url : string;
  responseType : ResponseType;
}.

(** A [GaxiosResponse], as far as [crawl] reads it. *)
Record Response : Type := {
  res_status : Z;
  res_data : string;
  content_type : option string;      (* [headers['content-type']] *)
}.

(** Lines 234-240.  Both patterns are literals, looked for anywhere in the
    header value; an absent header counts as the empty string. *)
Definition isHtml (response : Response) : bool :=
  let contentType := default "" (content_type response) in
  JS.includes "text/html" contentType || JS.includes "application/xhtml+xml" contentType.

(** *** The shared state of one run *)

Inductive Event : Type :=
| link_event (r : LinkResult)          (* [emit('link', result)] *)
| pagestart_event (u : string).        (* [emit('pagestart', url)] *)

(** Where a started task is suspended. *)
Inductive Await : Type :=
| first_request         (* the [await] at line 151 *)
| retry_request.        (* the [await] at line 160 *)

Record Run : Type := {
  checkOptions : CheckOptions;        (* the options object, shared by all tasks *)
  cache : gset string;
  results : list LinkResult;
  queue : list CrawlOptions;          (* added to the PQueue, not started *)
  awaiting : list (CrawlOptions * Await);   (* started, suspended at a request *)
  requests : list Request;            (* the calls of [gaxios.request], oldest first *)
  events : list Event;
}.

Definition insert_cache (u : string) (s : Run) : Run :=
  {| checkOptions := checkOptions s; cache := {[u]} ∪ cache s; results := results s;
     queue := queue s; awaiting := awaiting s; requests := requests s;
     events := events s |}.

(** [opts.results.push(result); this.emit('link', result)] *)
Definition push_result (r : LinkResult) (s : Run) : Run :=
  {| checkOptions := checkOptions s; cache := cache s; results := results s ++ [r];
     queue := queue s; awaiting := awaiting s; requests := requests s;
     events := events s ++ [link_event r] |}.

Definition emit (e : Event) (s : Run) : Run :=
  {| checkOptions := checkOptions s; cache := cache s; results := results s;
     queue := queue s; awaiting := awaiting s; requests := requests s;
     events := events s ++ [e] |}.

(** [opts.queue.add(...)], once per child. *)
Definition enqueue (ts : list CrawlOptions) (s : Run) : Run :=
  {| checkOptions := checkOptions s; cache := cache s; results := results s;
     queue := queue s ++ ts; awaiting := awaiting s; requests := requests s;
     events := events s |}.

Definition set_queue (q : list CrawlOptions) (s : Run) : Run :=
  {| checkOptions := checkOptions s; cache := cache s; results := results s;
     queue := q; awaiting := awaiting s; requests := requests s;
     events := events s |}.

Definition set_awaiting (a : list (CrawlOptions * Await)) (s : Run) : Run :=
  {| checkOptions := checkOptions s; cache := cache s; results := results s;
     queue := queue s; awaiting := a; requests := requests s;
     events := events s |}.

(** A call of [gaxios.request] by task [t], which then waits at [w]. *)
Definition request (q : Request) (t : CrawlOptions) (w : Await) (s : Run) : Run :=
  {| checkOptions := checkOptions s; cache := cache s; results := results s;
     queue := queue s; awaiting := awaiting s ++ [(t, w)];
     requests := requests s ++ [q]; events := events s |}.

(** The URLs of the tasks that went through the dedup gate and have
    recorded a result or are suspended at a request. *)
Definition dispatched (s : Run) : list string :=
  map url (results s) ++ map (fun p => opts_url (fst p)) (awaiting s).

(** Each dispatched URL is in the cache, and none is dispatched twice. *)
Definition dedup_inv (s : Run) : Prop :=
  NoDup (dispatched s) /\ forall u, u ∈ dispatched s -> u ∈ cache s.

Section Crawl.

(** [new RegExp(pattern).test(subject)]; [None] when the pattern does not
    compile (SyntaxError). *)
Variable RegExp_test : string -> string -> option bool.

(** [new URL(input, base)]; [None] when it throws. *)
Variable URL_new : string -> option string -> option URL.

(** [getLinks(data, opts.url)] as [crawl] calls it: the candidate links
    as strings; [None] when the extractor throws. *)
Variable getLinks : string -> string -> option (list string).

(** Lines 128-134: [skips.length > 0].  [None] is an exception: an
    undefined [linksToSkip] or a pattern that does not compile. *)
Definition skips (opts : CheckOptions) (u : string) : option (list bool) :=
  patterns ← linksToSkip opts;
  ms ← mapM (fun linkToSkip => RegExp_test linkToSkip u) patterns;
  Some (filter (fun m => m = true) ms).

Definition is_skipped (opts : CheckOptions) (u : string) : option bool :=
  ms ← skips opts u; Some (bool_decide (0 < length ms)%nat).

(** No request was issued, and no task is suspended, for a URL that a skip
    pattern matches. *)
Definition skip_inv (s : Run) : Prop :=
  (forall q, q ∈ requests s -> is_skipped (checkOptions s) (req_url q) = Some false)
  /\ (forall p, p ∈ awaiting s -> is_skipped (checkOptions s) (opts_url (fst p)) = Some false).

(** Lines 122-156: from the entry of [crawl] to its first [await]. *)
Definition crawl_enter (t : CrawlOptions) (s : Run) : Run :=
  if decide (opts_url t ∈ cache s) then s
  else
    let s := insert_cache (opts_url t) s in
    match is_skipped (checkOptions s) (opts_url t) with
    | None => s                                  (* the task rejects *)
    | Some true =>
        push_result {| url := opts_url t; status := None; state := SKIPPED;
                       parent := opts_parent t |} s
    | Some false =>
        request {| method := if opts_crawl t then GET else HEAD;
                   req_url := opts_url t;
                   responseType := if opts_crawl t then text else stream |}
                t first_request s
    end.

(** Lines 192-201: the [crawl] flag of a child. *)
Definition childCrawl (opts : CheckOptions) (u : string) : bool :=
  let crawl := default false (recurse opts) && JS.startsWith u (path opts) in
  if crawl then
    match URL_new u None with
    | Some parsedUrl =>
        match URL_new (path opts) None with
        | Some pathUrl => crawl && String.eqb (host parsedUrl) (host pathUrl)
        | None => crawl                          (* [catch {}] *)
        end
    | None => crawl                              (* [catch {}] *)
    end
  else crawl.

Definition child (opts : CheckOptions) (parent_url u : string) : CrawlOptions :=
  {| opts_url := u; opts_parent := Some parent_url; opts_crawl := childCrawl opts u |}.

(** Lines 146-149 and 168-177: the variables [status], [state], [data]
    and [shouldRecurse] once the [try] block is left; [None] is a
    rejected request. *)
Definition outcome (r : option Response) : Z * LinkState * string * bool :=
  match r with
  | Some res =>
      (res_status res,
       if (200 <=? res_status res)%Z && (res_status res <? 300)%Z then OK else BROKEN,
       res_data res,
       isHtml res)
  | None => (0%Z, BROKEN, "", false)
  end.

(** Lines 178-215: from the end of the [try] block to the end of [crawl]. *)
Definition crawl_finish (t : CrawlOptions) (r : option Response) (s : Run) : Run :=
  let '(status, state, data, shouldRecurse) := outcome r in
  let s := push_result {| url := opts_url t; status := Some status; state := state;
                          parent := opts_parent t |} s in
  if opts_crawl t && shouldRecurse then
    let s := emit (pagestart_event (opts_url t)) s in
    match getLinks data (opts_url t) with
    | Some urls => enqueue (map (child (checkOptions s) (opts_url t)) urls) s
    | None => s                                  (* the task rejects *)
    end
  else s.

(** Lines 157-166: the task resumes with the reply to its first request. *)
Definition crawl_first_reply (t : CrawlOptions) (r : option Response) (s : Run) : Run :=
  match r with
  | Some res =>
      if (res_status res =? 405)%Z then
        request {| method := GET; req_url := opts_url t; responseType := stream |}
                t retry_request s
      else crawl_finish t r s
  | None => crawl_finish t r s
  end.

(** *** Interleavings

    A task runs without interruption between two [await]s, so a run is
    a sequence of atomic moves: the queue starts its oldest task while
    fewer than [concurrency] tasks are pending, or a suspended task
    receives the outcome of its request.  The queue is the p-queue
    library, which is outside the source: the order of start and the
    concurrency bound are its documented contract, taken here as given. *)

Inductive Action : Type :=
| Start
| Reply (i : nat) (r : option Response).

(** [options.concurrency || 100] *)
Definition concurrency_limit (opts : CheckOptions) : Z :=
  match concurrency opts with
  | Some n => if (n =? 0)%Z then 100%Z else n
  | None => 100%Z
  end.

Definition step (a : Action) (s : Run) : option Run :=
  match a with
  | Start =>
      match queue s with
      | t :: q =>
          if decide (Z.of_nat (length (awaiting s)) < concurrency_limit (checkOptions s))%Z
          then Some (crawl_enter t (set_queue q s))
          else None
      | [] => None
      end
  | Reply i r =>
      match awaiting s !! i with
      | Some (t, first_request) =>
          Some (crawl_first_reply t r (set_awaiting (delete i (awaiting s)) s))
      | Some (t, retry_request) =>
          Some (crawl_finish t r (set_awaiting (delete i (awaiting s)) s))
      | None => None
      end
  end.

Fixpoint exec (acts : list Action) (s : Run) : option Run :=
  match acts with
  | [] => Some s
  | a :: acts' => s' ← step a s; exec acts' s'
  end.

(** [queue.onIdle()] resolves: nothing queued, nothing pending. *)
Definition idle (s : Run) : bool :=
  bool_decide (queue s = []) && bool_decide (awaiting s = []).

End Crawl.

(** *** [check] *)

(** Lines 60-61: the built-in patterns are pushed onto the caller's list. *)
Definition add_builtin_skips (options : CheckOptions) : CheckOptions :=
  {| concurrency := concurrency options; port := port options; path := path options;
     recurse := recurse options;
     linksToSkip := Some (default [] (linksToSkip options)
                          ++ ["^mailto:"; "^irc:"; "^data:"])%list |}.

(** Line 64: [options.port || 5000 + Math.round(Math.random() * 1000)],
    with [rnd] the rounded random term. *)
Definition server_port (options : CheckOptions) (rnd : Z) : Z :=
  match port options with
  | Some p => if (p =? 0)%Z then (5000 + rnd)%Z else p
  | None => (5000 + rnd)%Z
  end.

(** Line 67 *)
Definition set_path (p : string) (options : CheckOptions) : CheckOptions :=
  {| concurrency := concurrency options; port := port options; path := p;
     recurse := recurse options; linksToSkip := linksToSkip options |}.

(** Lines 60-68.  [listening] tells whether [startWebServer] resolves. *)
Inductive Setup : Type :=
| Fatal (options : CheckOptions)                 (* [startWebServer] rejected *)
| Ready (options : CheckOptions) (server : bool).

Definition check_setup (options : CheckOptions) (rnd : Z) (listening : bool) : Setup :=
  let options := add_builtin_skips options in
  if negb (JS.startsWith (path options) "http") then
    let port := server_port options rnd in
    if listening then Ready (set_path ("http://localhost:" ++ pretty port) options) true
    else Fatal options
  else Ready options false.

(** Lines 70-84: empty results and cache, the root task added to the queue. *)
Definition check_seed (options : CheckOptions) : Run :=
  {| checkOptions := options; cache := ∅; results := [];
     queue := [ {| opts_url := path options; opts_parent := None; opts_crawl := true |} ];
     awaiting := []; requests := []; events := [] |}.

(** Lines 87-90 *)
Definition check_result (s : Run) : CrawlResult :=
  {| links := results s;
     passed := bool_decide (length (filter (fun x => state x = BROKEN) (results s)) = 0%nat) |}.

(** What a call of [check] leaves: the promise's fate and the options
    object as the caller finds it afterwards. *)
Inductive CheckOutcome : Type :=
| Rejected (options : CheckOptions)
| Resolved (result : CrawlResult) (options : CheckOptions).

Section Check.
Variable RegExp_test : string -> string -> option bool.
Variable URL_new : string -> option string -> option URL.
Variable getLinks : string -> string -> option (list string).

(** [check(options)] along the schedule [acts]; [None] when [acts] is not
    a complete run (an impossible move, or the queue is not idle at its end). *)
Definition check (options : CheckOptions) (rnd : Z) (listening : bool)
           (acts : list Action) : option CheckOutcome :=
  match check_setup options rnd listening with
  | Fatal o => Some (Rejected o)
  | Ready o _ =>
      s ← exec RegExp_test URL_new getLinks acts (check_seed o);
      if idle s then Some (Resolved (check_result s) (checkOptions s)) else None
  end.
End Check.

(** *** Notions used to state the properties of a run *)

(** The result a task pushes once its request is settled with [r]
    (lines 178-183). *)
Definition fetched_result (t : CrawlOptions) (r : option Response) : LinkResult :=
  let '(status, state, _, _) := outcome r in
  {| url := opts_url t; status := Some status; state := state; parent := opts_parent t |}.

(** The payloads of the [link] events, in order. *)
Definition link_events (evs : list Event) : list LinkResult :=
  omap (fun e => match e with link_event r => Some r | pagestart_event _ => None end) evs.

(** The payloads of the [pagestart] events, in order. *)
Definition pagestarts (evs : list Event) : list string :=
  omap (fun e => match e with pagestart_event u => Some u | link_event _ => None end) evs.

(** The tasks that have not finished: queued or suspended. *)
Definition tasks (s : Run) : list CrawlOptions := queue s ++ map fst (awaiting s).

(** The referrer of a task or of a result is accounted for: none for the
    root, a page that was announced otherwise. *)
Definition parent_recorded (o : CheckOptions) (s : Run)
           (par : option string) (u : string) : Prop :=
  match par with
  | None => u = path o
  | Some p => p ∈ pagestarts (events s)
  end.

(** The requests a suspended task has issued so far. *)
Definition issued (w : Await) : nat :=
  match w with first_request => 1 | retry_request => 2 end.

End Checker.

(** ** A sample platform

    Concrete stand-ins for the platform services, used to run the model on
    examples.  Each covers a fragment of what the real service accepts and
    agrees with it on the inputs of the examples. *)

Module Sample.

Import Regex.

(** Patterns that are a literal, or [^] followed by a literal; the
    unbalanced pattern ["("] does not compile. *)
Definition RegExp_test (pattern subject : string) : option bool :=
  if String.eqb pattern "(" then None
  else match pattern with
       | String "^" lit => Some (String.prefix lit subject)
       | _ => Some (JS.includes pattern subject)
       end.

Definition is_host_char (c : ascii) : bool :=
  let n := Ascii.nat_of_ascii c in
  (Nat.leb 97 n && Nat.leb n 122) || Links.is_digit c
  || Ascii.eqb c "-" || Ascii.eqb c ".".

(** The longest prefix of characters satisfying [p], and the rest. *)
Fixpoint span (p : ascii -> bool) (s : string) : string * string :=
  match s with
  | String c s' =>
      if p c then let (a, b) := span p s' in (String c a, b) else (EmptyString, s)
  | EmptyString => (EmptyString, EmptyString)
  end.

(** [s] without the prefix [p], when it has it. *)
Fixpoint strip_prefix (p s : string) : option string :=
  match p, s with
  | EmptyString, _ => Some s
  | String a p', String b s' => if Ascii.eqb a b then strip_prefix p' s' else None
  | _, _ => None
  end.

(** Path, query and fragment: the text up to the first [#], and what follows it. *)
Definition split_fragment (s : string) : string * option string :=
  let (a, b) := span (fun c => negb (Ascii.eqb c "#")) s in
  (a, match b with String _ f => Some f | EmptyString => None end).

(** After [scheme://]: a non-empty host of lower-case letters, digits,
    [-] and [.], an optional port of digits, then nothing or a path,
    query or fragment. *)
Definition parse_authority (scheme rest : string) : option URL :=
  let (h, rest1) := span is_host_char rest in
  if negb (JS.truthy h) then None
  else
    let authority_tail :=
      match rest1 with
      | String ":" rest2 =>
          let (p, rest3) := span Links.is_digit rest2 in
          Some ((if JS.truthy p then h ++ ":" ++ p else h), rest3)
      | _ => Some (h, rest1)
      end in
    match authority_tail with
    | Some (hst, tl) =>
        let (body, frag) := split_fragment tl in
        match body with
        | EmptyString =>
            Some {| serialized := scheme ++ "//" ++ hst ++ "/"; host := hst; fragment := frag |}
        | String "/" _ =>
            Some {| serialized := scheme ++ "//" ++ hst ++ body; host := hst; fragment := frag |}
        | String "?" _ =>
            Some {| serialized := scheme ++ "//" ++ hst ++ "/" ++ body; host := hst;
                    fragment := frag |}
        | _ => None
        end
    | None => None
    end.

Definition parse_absolute (input : string) : option URL :=
  match strip_prefix "http://" input, strip_prefix "https://" input with
  | Some rest, _ => parse_authority "http:" rest
  | None, Some rest => parse_authority "https:" rest
  | None, None =>
      if bool_decide (is_Some (exec_anchored Links.schemeRegexp input))
         && negb (String.prefix "http:" input) && negb (String.prefix "https:" input)
      then let (body, frag) := split_fragment input in
           Some {| serialized := body; host := ""; fragment := frag |}
      else None
  end.

(** The text up to and including the last [/]. *)
Fixpoint directory (s : string) : string :=
  match s with
  | EmptyString => EmptyString
  | String c s' =>
      match directory s' with
      | EmptyString => if Ascii.eqb c "/" then String c EmptyString else EmptyString
      | d => String c d
      end
  end.

(** [scheme://host] of an http(s) URL. *)
Definition origin (u : URL) : string :=
  (if String.prefix "https:" (serialized u) then "https://" else "http://") ++ host u.

Definition URL_new (input : string) (base : option string) : option URL :=
  match parse_absolute input with
  | Some u => Some u
  | None =>
      if String.prefix "http:" input || String.prefix "https:" input then None
      else
        b ← base; bu ← parse_absolute b;
        if negb (JS.truthy (host bu)) then None
        else match input with
             | String "/" _ => parse_absolute (origin bu ++ input)
             | _ => parse_absolute (directory (serialized bu) ++ input)
             end
  end.

(** The documents of the examples, as the HTML parser returns them. *)
Definition cheerio_load (source : string) : list Links.Element :=
  if String.eqb source "<a href='http://'>x</a><a href='/ok'>y</a>" then
    [ {| Links.tagName := "a"; Links.attribs := [("href", "http://")] |};
      {| Links.tagName := "a"; Links.attribs := [("href", "/ok")] |} ]
  else if String.eqb source "<base href='/docs/'><a href='page.html#top'>" then
    [ {| Links.tagName := "base"; Links.attribs := [("href", "/docs/")] |};
      {| Links.tagName := "a"; Links.attribs := [("href", "page.html#top")] |} ]
  else if String.eqb source "<a href='/a'>1</a><a href='/a'>2</a><a href='mailto:me@x'>3</a>" then
    [ {| Links.tagName := "a"; Links.attribs := [("href", "/a")] |};
      {| Links.tagName := "a"; Links.attribs := [("href", "/a")] |};
      {| Links.tagName := "a"; Links.attribs := [("href", "mailto:me@x")] |} ]
  else [].

Definition options : Checker.CheckOptions :=
  {| Checker.concurrency := None; Checker.port := None; Checker.path := "http://x";
     Checker.recurse := Some true; Checker.linksToSkip := None |}.

Definition html (st : Z) (body : string) : Checker.Response :=
  {| Checker.res_status := st; Checker.res_data := body;
     Checker.content_type := Some "text/html; charset=utf-8" |}.

Definition plain (st : Z) : Checker.Response :=
  {| Checker.res_status := st; Checker.res_data := ""; Checker.content_type := None |}.

(** The options once [check] has started up. *)
Definition ready : Checker.CheckOptions := Checker.add_builtin_skips options.

(** The same without [recurse]: every child is probed, none is expanded. *)
Definition ready_flat : Checker.CheckOptions :=
  Checker.add_builtin_skips
    {| Checker.concurrency := None; Checker.port := None; Checker.path := "http://x";
       Checker.recurse := None; Checker.linksToSkip := None |}.

Definition root : Checker.CrawlOptions :=
  {| Checker.opts_url := "http://x"; Checker.opts_parent := None;
     Checker.opts_crawl := true |}.

(** A page with a link that does not resolve and one that does. *)
Definition page_bad_link : string := "<a href='http://'>x</a><a href='/ok'>y</a>".

(** A page that links twice to [/a] and once to a mail address. *)
Definition page_three_links : string :=
  "<a href='/a'>1</a><a href='/a'>2</a><a href='mailto:me@x'>3</a>".

(** The extractor of the examples.  [crawl] calls [getLinks(data, opts.url)]
    and reads each element of the result as a string; the function of
    that name in links.ts, called with two arguments, throws
    ([Links.getLinks_call] without rules), which is the extractor
    [fun _ _ => None].  The properties of [crawl] hold for every extractor;
    to exercise lines 191-214 the examples use one that hands [crawl] the
    three links of [page_three_links] and finds none in any other page. *)
Definition getLinks (data baseUrl : string) : option (list string) :=
  if String.eqb data page_three_links
  then Some ["http://x/a"; "http://x/a"; "mailto:me@x"]
  else Some [].

(** A complete run over [page_three_links]: the root is fetched, [/a] is
    requested once and answers 404, its second occurrence is discarded,
    the mail address is skipped. *)
Definition schedule : list Checker.Action :=
  [ Checker.Start; Checker.Reply 0 (Some (html 200 page_three_links));
    Checker.Start; Checker.Start; Checker.Start;
    Checker.Reply 0 (Some (plain 404)) ].

(** The state a schedule leads to from the seed of [ready] (the seed
    itself when the schedule is not executable). *)
Definition run (acts : list Checker.Action) : Checker.Run :=
  default (Checker.check_seed ready)
          (Checker.exec RegExp_test URL_new getLinks acts (Checker.check_seed ready)).

End Sample.

(** ** The [style] attribute as the specification words it

    Split on [;], then split each declaration on its first [:]; a
    [background] or [background-image] declaration whose value matches the
    [url(...)] pattern yields the inner URL, any other declaration nothing.
    This second definition is compared with [Links.parseAttr] below. *)

Module StyleSpec.

(** The text before the first [sep], and the text after it if [sep] occurs. *)
Fixpoint split_first (sep : ascii) (s : string) : string * option string :=
  match s with
  | EmptyString => (EmptyString, None)
  | String c s' =>
      if Ascii.eqb c sep then (EmptyString, Some s')
      else let (a, b) := split_first sep s' in (String c a, b)
  end.

Definition declaration (decl : string) : list string :=
  let (name, value) := split_first ":" decl in
  if bool_decide (JS.trim name ∈ ["background"; "background-image"]) then
    match value with
    | Some v =>
        match Regex.exec_anchored Links.urlValueRegexp v with
        | Some (caps, _) => [default "" (Regex.capture 2 caps)]
        | None => []
        end
    | None => []
    end
  else [].

Definition parseStyle (value : string) : list string :=
  flat_map declaration (JS.split ";" value).

Fixpoint no_line_terminator (s : string) : bool :=
  match s with
  | EmptyString => true
  | String c s' => negb (JS.is_line_terminator c) && no_line_terminator s'
  end.

(** The declarations on which the two readings of the split cannot differ:
    under a listed property, exactly one [:] and a value on one line. *)
Definition plain_declaration (decl : string) : Prop :=
  JS.trim (default "" (head (JS.split ":" decl))) ∈ ["background"; "background-image"] ->
  exists name value,
    JS.split ":" decl = [name; value] /\ no_line_terminator value = true.

End StyleSpec.

Import Checker.

Local Open Scope list_scope.

(** The engine on the sample platform. *)
Abbreviation sample_exec :=
  (Checker.exec Sample.RegExp_test Sample.URL_new Sample.getLinks).
Abbreviation sample_step :=
  (Checker.step Sample.RegExp_test Sample.URL_new Sample.getLinks).

(** * Properties *)

(** ** One move of the crawl *)

Section CrawlProperties.

Variable RegExp_test : string -> string -> option bool.
Variable URL_new : string -> option string -> option URL.
Variable getLinks : string -> string -> option (list string).

Abbreviation step := (Checker.step RegExp_test URL_new getLinks).
Abbreviation exec := (Checker.exec RegExp_test URL_new getLinks).
Abbreviation crawl_enter := (Checker.crawl_enter RegExp_test).
Abbreviation crawl_finish := (Checker.crawl_finish URL_new getLinks).
Abbreviation crawl_first_reply := (Checker.crawl_first_reply URL_new getLinks).
Abbreviation is_skipped := (Checker.is_skipped RegExp_test).
Abbreviation child := (Checker.child URL_new).

(** The result a task pushes once its request is settled. *)
Lemma outcome_state (r : option Response) :
  let '(n, st, _, html) := outcome r in
  (st = OK <-> (200 <= n < 300)%Z) /\ (st = BROKEN <-> ~ (200 <= n < 300)%Z)
  /\ st <> SKIPPED
  /\ n = match r with Some res => res_status res | None => 0%Z end
  /\ (html = true -> exists res, r = Some res /\ isHtml res = true).
Proof.
  destruct r as [res|]; simpl.
  - destruct (200 <=? res_status res)%Z eqn:H1, (res_status res <? 300)%Z eqn:H2; simpl;
      repeat split; try congruence; try lia; eauto.
  - repeat split; try congruence; try lia.
Qed.

(** What [crawl_finish] changes: one result and its event, then, for an
    eligible HTML page, the page-start event and the children. *)
Lemma crawl_finish_fields (t : CrawlOptions) (r : option Response) (s : Run) :
  exists n st children evs,
    checkOptions (crawl_finish t r s) = checkOptions s
    /\ cache (crawl_finish t r s) = cache s
    /\ results (crawl_finish t r s)
       = results s ++ [ {| url := opts_url t; status := Some n; state := st;
                           parent := opts_parent t |} ]
    /\ queue (crawl_finish t r s) = queue s ++ children
    /\ awaiting (crawl_finish t r s) = awaiting s
    /\ requests (crawl_finish t r s) = requests s
    /\ events (crawl_finish t r s)
       = events s ++ link_event {| url := opts_url t; status := Some n; state := st;
                                   parent := opts_parent t |} :: evs
    /\ (st = OK <-> (200 <= n < 300)%Z) /\ (st = BROKEN <-> ~ (200 <= n < 300)%Z)
    /\ n = match r with Some res => res_status res | None => 0%Z end
    /\ (children <> [] \/ evs <> [] ->
        opts_crawl t = true /\ exists res, r = Some res /\ isHtml res = true).
Proof.
  unfold Checker.crawl_finish.
  pose proof (outcome_state r) as Ho.
  destruct (outcome r) as [[[n st] data] html].
  destruct Ho as (Hok & Hbr & _ & Hn & Hhtml).
  destruct (opts_crawl t) eqn:Hc; simpl.
  - destruct html eqn:Hh.
    + destruct (getLinks data (opts_url t)) as [urls|]; simpl.
      * exists n, st, (map (child (checkOptions s) (opts_url t)) urls),
          [pagestart_event (opts_url t)].
        rewrite <- app_assoc. simpl. repeat split; tauto.
      * exists n, st, [], [pagestart_event (opts_url t)].
        rewrite <- app_assoc, app_nil_r. simpl. repeat split; tauto.
    + exists n, st, [], []. rewrite app_nil_r. simpl.
      repeat split; try tauto; intros [?|?]; congruence.
  - exists n, st, [], []. rewrite app_nil_r. simpl.
    repeat split; try tauto; intros [?|?]; congruence.
Qed.

(** The reply to the first request either triggers the retry or settles
    the task. *)
Lemma crawl_first_reply_cases (t : CrawlOptions) (r : option Response) (s : Run) :
  (exists res, r = Some res /\ res_status res = 405%Z
     /\ crawl_first_reply t r s
        = request {| method := GET; req_url := opts_url t; responseType := stream |}
                  t retry_request s)
  \/ ((forall res, r = Some res -> res_status res <> 405%Z)
      /\ crawl_first_reply t r s = crawl_finish t r s).
Proof.
  unfold Checker.crawl_first_reply. destruct r as [res|].
  - destruct (res_status res =? 405)%Z eqn:E.
    + left. exists res. repeat split. lia.
    + right. split; [|reflexivity]. intros ? [= <-]. lia.
  - right. split; [|reflexivity]. discriminate.
Qed.

(** The entry of a task: discarded at the gate, or recorded in the cache
    and then rejected, skipped, or suspended at its first request. *)
Lemma crawl_enter_cases (t : CrawlOptions) (s : Run) :
  (opts_url t ∈ cache s /\ crawl_enter t s = s)
  \/ ((opts_url t ∉ cache s) /\
      ((is_skipped (checkOptions s) (opts_url t) = None
        /\ crawl_enter t s = insert_cache (opts_url t) s)
       \/ (is_skipped (checkOptions s) (opts_url t) = Some true
           /\ crawl_enter t s
              = push_result {| url := opts_url t; status := None; state := SKIPPED;
                               parent := opts_parent t |} (insert_cache (opts_url t) s))
       \/ (is_skipped (checkOptions s) (opts_url t) = Some false
           /\ crawl_enter t s
              = request {| method := if opts_crawl t then GET else HEAD;
                           req_url := opts_url t;
                           responseType := if opts_crawl t then text else stream |}
                        t first_request (insert_cache (opts_url t) s)))).
Proof.
  unfold Checker.crawl_enter. case_decide as Hin; [left; done|right].
  split; [done|]. simpl.
  destruct (is_skipped (checkOptions s) (opts_url t)) as [[]|]; tauto.
Qed.

(** The moves, by cases. *)
Lemma step_Start_inv (s s' : Run) :
  step Start s = Some s' ->
  exists t q, queue s = t :: q
    /\ (Z.of_nat (length (awaiting s)) < concurrency_limit (checkOptions s))%Z
    /\ s' = crawl_enter t (set_queue q s).
Proof.
  simpl. destruct (queue s) as [|t q]; [discriminate|].
  case_decide; [|discriminate]. intros [= <-]. eauto.
Qed.

Lemma step_Reply_inv (i : nat) (r : option Response) (s s' : Run) :
  step (Reply i r) s = Some s' ->
  exists t w, awaiting s !! i = Some (t, w)
    /\ s' = match w with
            | first_request => crawl_first_reply t r (set_awaiting (delete i (awaiting s)) s)
            | retry_request => crawl_finish t r (set_awaiting (delete i (awaiting s)) s)
            end.
Proof.
  simpl. destruct (awaiting s !! i) as [[t []]|]; [| |discriminate];
    intros [= <-]; eauto.
Qed.

Lemma crawl_enter_checkOptions (t : CrawlOptions) (s : Run) :
  checkOptions (crawl_enter t s) = checkOptions s.
Proof.
  destruct (crawl_enter_cases t s) as [[_ ->]|[_ [[_ ->]|[[_ ->]|[_ ->]]]]]; reflexivity.
Qed.

Lemma crawl_finish_checkOptions (t : CrawlOptions) (r : option Response) (s : Run) :
  checkOptions (crawl_finish t r s) = checkOptions s.
Proof. destruct (crawl_finish_fields t r s) as (? & ? & ? & ? & H & _). exact H. Qed.

Lemma crawl_first_reply_checkOptions (t : CrawlOptions) (r : option Response) (s : Run) :
  checkOptions (crawl_first_reply t r s) = checkOptions s.
Proof.
  destruct (crawl_first_reply_cases t r s) as [(? & _ & _ & ->)|[_ ->]];
    [reflexivity|apply crawl_finish_checkOptions].
Qed.

(** No move of the crawl writes to the options object. *)
Lemma step_checkOptions (a : Action) (s s' : Run) :
  step a s = Some s' -> checkOptions s' = checkOptions s.
Proof.
  destruct a as [|i r]; intros H.
  - apply step_Start_inv in H as (t & q & _ & _ & ->).
    now rewrite crawl_enter_checkOptions.
  - apply step_Reply_inv in H as (t & w & _ & ->).
    destruct w; [rewrite crawl_first_reply_checkOptions|rewrite crawl_finish_checkOptions];
      reflexivity.
Qed.

Lemma exec_checkOptions (acts : list Action) (s s' : Run) :
  exec acts s = Some s' -> checkOptions s' = checkOptions s.
Proof.
  revert s. induction acts as [|a acts IH]; simpl; intros s H.
  - congruence.
  - destruct (step a s) as [s1|] eqn:Hs; simpl in H; [|discriminate].
    rewrite (IH _ H). eapply step_checkOptions, Hs.
Qed.

(** A property kept by every move holds along every schedule. *)
Lemma exec_invariant (P : Run -> Prop) :
  (forall a s s', P s -> step a s = Some s' -> P s') ->
  forall acts s s', P s -> exec acts s = Some s' -> P s'.
Proof.
  intros Hstep acts. induction acts as [|a acts IH]; simpl; intros s s' HP H.
  - congruence.
  - destruct (step a s) as [s1|] eqn:Hs; simpl in H; [|discriminate].
    eapply IH; [|exact H]. eapply Hstep; eauto.
Qed.

(** C3: children are queued, and the extractor is run (the page-start
    event precedes it), only by a task that was started with [crawl] set,
    whose request was answered, and whose answer [isHtml] accepts (its
    content type contains [text/html] or [application/xhtml+xml]); a move
    where one of the three fails queues nothing, and starting a task
    queues nothing either. *)
Theorem children_only_from_crawled_html (a : Action) (s s' : Run) :
  step a s = Some s' ->
  match a with
  | Start =>
      exists t, queue s = t :: queue s'
        /\ forall u, pagestart_event u ∈ events s' -> pagestart_event u ∈ events s
  | Reply i r =>
      exists t w children evs,
        awaiting s !! i = Some (t, w)
        /\ queue s' = queue s ++ children
        /\ events s' = events s ++ evs
        /\ (children <> [] \/ (exists u, pagestart_event u ∈ evs) ->
            opts_crawl t = true /\ exists res, r = Some res /\ isHtml res = true)
        /\ (opts_crawl t = false \/ r = None
            \/ (exists res, r = Some res /\ isHtml res = false) ->
            children = [] /\ forall u, pagestart_event u ∉ evs)
  end.
Proof.
  destruct a as [|i r]; intros H.
  - apply step_Start_inv in H as (t & q & Hq & _ & ->).
    exists t. rewrite Hq.
    destruct (crawl_enter_cases t (set_queue q s))
      as [[_ ->]|[_ [[_ ->]|[[_ ->]|[_ ->]]]]]; simpl; split; try done.
    intros u Hin. apply elem_of_app in Hin as [Hin|Hin]; [done|].
    apply list_elem_of_singleton in Hin. discriminate.
  - apply step_Reply_inv in H as (t & w & Hw & ->).
    set (s0 := set_awaiting (delete i (awaiting s)) s).
    assert (Hfin : exists children evs,
      queue (crawl_finish t r s0) = queue s ++ children
      /\ events (crawl_finish t r s0) = events s ++ evs
      /\ (children <> [] \/ (exists u, pagestart_event u ∈ evs) ->
          opts_crawl t = true /\ exists res, r = Some res /\ isHtml res = true)).
    { destruct (crawl_finish_fields t r s0)
        as (n & st & children & evs & _ & _ & _ & Hq & _ & _ & He & _ & _ & _ & Hc).
      exists children, (link_event {| url := opts_url t; status := Some n; state := st;
                                      parent := opts_parent t |} :: evs).
      split; [exact Hq|split; [exact He|]].
      intros Hor. apply Hc. destruct Hor as [Hne|[u Hu]]; [left; exact Hne|right].
      apply elem_of_cons in Hu as [?|Hu]; [discriminate|].
      intros ->. by apply elem_of_nil in Hu. }
    assert (Hgoal : exists children evs,
      queue match w with
            | first_request => crawl_first_reply t r s0
            | retry_request => crawl_finish t r s0
            end = queue s ++ children
      /\ events match w with
                | first_request => crawl_first_reply t r s0
                | retry_request => crawl_finish t r s0
                end = events s ++ evs
      /\ (children <> [] \/ (exists u, pagestart_event u ∈ evs) ->
          opts_crawl t = true /\ exists res, r = Some res /\ isHtml res = true)).
    { destruct w; [|exact Hfin].
      destruct (crawl_first_reply_cases t r s0) as [(res & _ & _ & ->)|[_ ->]];
        [|exact Hfin].
      exists [], []. simpl. rewrite !app_nil_r.
      split; [reflexivity|split; [reflexivity|]].
      intros [?|[u Hu]]; [done|by apply elem_of_nil in Hu]. }
    destruct Hgoal as (children & evs & Hq & He & Hc).
    exists t, w, children, evs.
    split; [exact Hw|split; [exact Hq|split; [exact He|split; [exact Hc|]]]].
    intros Hfail. split.
    + destruct children as [|c cs]; [reflexivity|].
      destruct Hc as [Hc1 (res & -> & Hh)]; [left; done|].
      destruct Hfail as [?|[?|(res' & [= <-] & ?)]]; congruence.
    + intros u Hu. destruct Hc as [Hc1 (res & -> & Hh)]; [right; eauto|].
      destruct Hfail as [?|[?|(res' & [= <-] & ?)]]; congruence.
Qed.

(** C6: whatever the outcome of its request, a suspended task resumes (a
    rejected request stops neither the task nor the run: the move is
    defined, the queue and the other suspended tasks are kept).  Unless
    the reply is the 405 that triggers the retry, the task pushes one
    result whose status is the response status, or 0 for a rejected
    request, and whose state is OK exactly when that status lies in
    [200,300) and BROKEN otherwise. *)
Theorem state_follows_status (i : nat) (r : option Response) (s : Run)
        (t : CrawlOptions) (w : Await) :
  awaiting s !! i = Some (t, w) ->
  exists s', step (Reply i r) s = Some s'
    /\ ((exists res, w = first_request /\ r = Some res /\ res_status res = 405%Z
           /\ results s' = results s /\ queue s' = queue s
           /\ awaiting s' = delete i (awaiting s) ++ [(t, retry_request)])
        \/ (exists n st children,
              results s' = results s ++ [ {| url := opts_url t; status := Some n;
                                             state := st; parent := opts_parent t |} ]
              /\ awaiting s' = delete i (awaiting s)
              /\ queue s' = queue s ++ children
              /\ n = match r with Some res => res_status res | None => 0%Z end
              /\ (st = OK <-> (200 <= n < 300)%Z)
              /\ (st = BROKEN <-> ~ (200 <= n < 300)%Z))).
Proof.
  intros Hw. simpl. rewrite Hw.
  set (s0 := set_awaiting (delete i (awaiting s)) s).
  assert (Hfin : exists n st children,
    results (crawl_finish t r s0)
    = results s ++ [ {| url := opts_url t; status := Some n; state := st;
                        parent := opts_parent t |} ]
    /\ awaiting (crawl_finish t r s0) = delete i (awaiting s)
    /\ queue (crawl_finish t r s0) = queue s ++ children
    /\ n = match r with Some res => res_status res | None => 0%Z end
    /\ (st = OK <-> (200 <= n < 300)%Z)
    /\ (st = BROKEN <-> ~ (200 <= n < 300)%Z)).
  { destruct (crawl_finish_fields t r s0)
      as (n & st & children & evs & _ & _ & Hr & Hq & Ha & _ & _ & Hok & Hbr & Hn & _).
    exists n, st, children. auto 10. }
  destruct w.
  - eexists; split; [reflexivity|].
    destruct (crawl_first_reply_cases t r s0) as [(res & -> & H405 & ->)|[_ ->]].
    + left. exists res. simpl. auto 10.
    + right. exact Hfin.
  - eexists; split; [reflexivity|]. right. exact Hfin.
Qed.

(** *** The dedup gate *)

Lemma dispatched_push (r : LinkResult) (s : Run) :
  dispatched (push_result r s) ≡ₚ url r :: dispatched s.
Proof.
  unfold dispatched. simpl. rewrite map_app. simpl.
  rewrite <- app_assoc. simpl. symmetry. apply Permutation_middle.
Qed.

Lemma dispatched_request (q : Request) (t : CrawlOptions) (w : Await) (s : Run) :
  dispatched (request q t w s) ≡ₚ opts_url t :: dispatched s.
Proof.
  unfold dispatched. simpl. rewrite map_app. simpl.
  rewrite app_assoc. rewrite <- Permutation_cons_append. reflexivity.
Qed.

Lemma dispatched_resume (i : nat) (t : CrawlOptions) (w : Await) (s : Run) :
  awaiting s !! i = Some (t, w) ->
  dispatched s ≡ₚ opts_url t :: dispatched (set_awaiting (delete i (awaiting s)) s).
Proof.
  intros Hw. unfold dispatched. simpl.
  rewrite (Permutation_map (fun p => opts_url (fst p)) (delete_Permutation _ _ _ Hw)).
  simpl. symmetry. apply Permutation_middle.
Qed.

Lemma dispatched_finish (t : CrawlOptions) (r : option Response) (s : Run) :
  dispatched (crawl_finish t r s) ≡ₚ opts_url t :: dispatched s
  /\ cache (crawl_finish t r s) = cache s.
Proof.
  destruct (crawl_finish_fields t r s)
    as (n & st & children & evs & _ & Hc & Hr & _ & Ha & _).
  split; [|exact Hc]. unfold dispatched. rewrite Hr, Ha, map_app. simpl.
  rewrite <- app_assoc. simpl. symmetry. apply Permutation_middle.
Qed.

(** A move either leaves the dispatched URLs as they are, or dispatches
    one URL that was not in the cache and records it there. *)
Lemma step_dispatched (a : Action) (s s' : Run) :
  step a s = Some s' ->
  (dispatched s' ≡ₚ dispatched s /\ cache s ⊆ cache s')
  \/ (exists u, (u ∉ cache s) /\ cache s' = {[u]} ∪ cache s
        /\ dispatched s' ≡ₚ u :: dispatched s).
Proof.
  destruct a as [|i r]; intros H.
  - apply step_Start_inv in H as (t & q & Hq & _ & ->).
    destruct (crawl_enter_cases t (set_queue q s))
      as [[_ ->]|[Hnin [[_ ->]|[[_ ->]|[_ ->]]]]]; try (simpl in Hnin).
    + left. unfold dispatched. simpl. split; [reflexivity|set_solver].
    + left. unfold dispatched. simpl. split; [reflexivity|set_solver].
    + right. exists (opts_url t). split; [exact Hnin|]. split; [reflexivity|].
      etrans; [apply dispatched_push|]. reflexivity.
    + right. exists (opts_url t). split; [exact Hnin|]. split; [reflexivity|].
      etrans; [apply dispatched_request|]. reflexivity.
  - apply step_Reply_inv in H as (t & w & Hw & ->). left.
    rewrite (dispatched_resume i t w s Hw).
    set (s0 := set_awaiting (delete i (awaiting s)) s).
    assert (Hfin : dispatched (crawl_finish t r s0) ≡ₚ opts_url t :: dispatched s0
                   /\ cache s ⊆ cache (crawl_finish t r s0)).
    { destruct (dispatched_finish t r s0) as [Hp Hc]. split; [exact Hp|].
      rewrite Hc. reflexivity. }
    destruct w; [|exact Hfin].
    destruct (crawl_first_reply_cases t r s0) as [(res & _ & _ & ->)|[_ ->]];
      [|exact Hfin].
    split; [apply dispatched_request|reflexivity].
Qed.

Lemma step_dedup_inv (a : Action) (s s' : Run) :
  dedup_inv s -> step a s = Some s' -> dedup_inv s'.
Proof.
  intros [Hnd Hin] H.
  destruct (step_dispatched a s s' H) as [[Hp Hc]|(u & Hu & Hc & Hp)];
    (split; [rewrite Hp|]).
  - exact Hnd.
  - intros v Hv. rewrite Hp in Hv. apply Hc, Hin, Hv.
  - apply NoDup_cons. split; [|exact Hnd]. intros Hd. apply Hu, Hin, Hd.
  - intros v Hv. rewrite Hp in Hv. rewrite Hc.
    apply elem_of_union. apply elem_of_cons in Hv as [->|Hv].
    + left. by apply elem_of_singleton.
    + right. apply Hin, Hv.
Qed.

Lemma check_seed_dedup_inv (o : CheckOptions) : dedup_inv (check_seed o).
Proof. split; [apply NoDup_nil_2|]. intros u Hu. by apply elem_of_nil in Hu. Qed.

(** C7: along every schedule of a run, no URL occurs twice among the
    results, nor among the results and the suspended tasks together (two
    tasks for one URL never both pass the gate).  Testing the cache and
    inserting into it are one move: the
    move that starts a task leaves its URL in the cache, and when the URL
    was there already it only removes the task from the queue (no result,
    no event, no request); the other moves leave the cache alone. *)
Theorem each_url_recorded_once (o : CheckOptions) (acts : list Action) (s : Run) :
  exec acts (check_seed o) = Some s ->
  NoDup (map url (results s))
  /\ NoDup (dispatched s)
  /\ forall a s', step a s = Some s' ->
       match a with
       | Start =>
           exists t q, queue s = t :: q /\ opts_url t ∈ cache s'
             /\ (opts_url t ∈ cache s -> s' = set_queue q s)
       | Reply _ _ => cache s' = cache s
       end.
Proof.
  intros Hrun.
  assert (Hinv : dedup_inv s).
  { eapply (exec_invariant dedup_inv); [apply step_dedup_inv| |exact Hrun].
    apply check_seed_dedup_inv. }
  destruct Hinv as [Hnd _]. split; [|split; [exact Hnd|]].
  - unfold dispatched in Hnd. apply NoDup_app in Hnd. tauto.
  - intros [|i r] s' H.
    + apply step_Start_inv in H as (t & q & Hq & _ & ->). exists t, q.
      split; [exact Hq|].
      destruct (crawl_enter_cases t (set_queue q s))
        as [[Hin ->]|[Hnin [[_ ->]|[[_ ->]|[_ ->]]]]]; simpl in *;
        (split; [set_solver|]); try done.
    + apply step_Reply_inv in H as (t & w & Hw & ->).
      set (s0 := set_awaiting (delete i (awaiting s)) s).
      destruct w; [|apply (dispatched_finish t r s0)].
      destruct (crawl_first_reply_cases t r s0) as [(res & _ & _ & ->)|[_ ->]];
        [reflexivity|apply (dispatched_finish t r s0)].
Qed.

(** *** The shape of the results *)

(** A move adds at most one result: a SKIPPED one without status, or a
    fetched one with a numeric status. *)
Lemma step_results (a : Action) (s s' : Run) :
  step a s = Some s' ->
  results s' = results s
  \/ exists res, results s' = results s ++ [res]
       /\ ((state res = SKIPPED /\ status res = None)
           \/ (state res <> SKIPPED /\ exists n, status res = Some n)).
Proof.
  destruct a as [|i r]; intros H.
  - apply step_Start_inv in H as (t & q & Hq & _ & ->).
    destruct (crawl_enter_cases t (set_queue q s))
      as [[_ ->]|[_ [[_ ->]|[[_ ->]|[_ ->]]]]]; simpl; auto.
    right. eexists. split; [reflexivity|]. left. done.
  - apply step_Reply_inv in H as (t & w & Hw & ->).
    set (s0 := set_awaiting (delete i (awaiting s)) s).
    assert (Hfin : exists res, results (crawl_finish t r s0) = results s ++ [res]
      /\ ((state res = SKIPPED /\ status res = None)
          \/ (state res <> SKIPPED /\ exists n, status res = Some n))).
    { destruct (crawl_finish_fields t r s0)
        as (n & st & children & evs & _ & _ & Hr & _ & _ & _ & _ & Hok & Hbr & _).
      eexists. split; [exact Hr|]. right. simpl. split; [|eauto].
      destruct (decide (200 <= n < 300)%Z) as [Hin|Hout].
      - apply Hok in Hin. congruence.
      - apply Hbr in Hout. congruence. }
    destruct w; [|right; exact Hfin].
    destruct (crawl_first_reply_cases t r s0) as [(res & _ & _ & ->)|[_ ->]];
      [left; reflexivity|right; exact Hfin].
Qed.

(** C10: in every state of a run, a result is SKIPPED exactly when it has
    no status; a result of a fetch attempt (OK or BROKEN) carries a
    number, which is 0 when the request was rejected. *)
Theorem skipped_iff_no_status (o : CheckOptions) (acts : list Action) (s : Run) :
  exec acts (check_seed o) = Some s ->
  (forall res, res ∈ results s ->
     (state res = SKIPPED <-> status res = None)
     /\ (state res = OK \/ state res = BROKEN -> exists n, status res = Some n))
  /\ (forall t s0, exists evs children,
        results (crawl_finish t None s0)
        = results s0 ++ [ {| url := opts_url t; status := Some 0%Z; state := BROKEN;
                             parent := opts_parent t |} ]
        /\ events (crawl_finish t None s0) = events s0 ++ evs
        /\ queue (crawl_finish t None s0) = queue s0 ++ children).
Proof.
  intros Hrun. split.
  - revert Hrun.
    apply (exec_invariant (fun s => forall res, res ∈ results s ->
       (state res = SKIPPED <-> status res = None)
       /\ (state res = OK \/ state res = BROKEN -> exists n, status res = Some n))).
    + intros a s1 s2 IH Hstep res Hres.
      destruct (step_results a s1 s2 Hstep) as [Heq|(res' & Heq & Hshape)];
        rewrite Heq in Hres; [auto|].
      apply elem_of_app in Hres as [Hres|Hres]; [auto|].
      apply list_elem_of_singleton in Hres as ->.
      destruct Hshape as [[Hst Hno]|[Hst [n Hn]]].
      * rewrite Hst, Hno. split; [tauto|]. intros [?|?]; discriminate.
      * rewrite Hn. split; [|eauto]. split; [tauto|discriminate].
    + intros res Hres. by apply elem_of_nil in Hres.
  - intros t s0. unfold Checker.crawl_finish. simpl.
    rewrite andb_false_r. simpl. eexists [_], []. rewrite app_nil_r. done.
Qed.

(** *** The skip gate *)

Lemma mapM_test_spec (u : string) (patterns : list string) (ms : list bool) :
  mapM (fun linkToSkip => RegExp_test linkToSkip u) patterns = Some ms ->
  (forall p, p ∈ patterns -> is_Some (RegExp_test p u))
  /\ ((0 < length (filter (fun m => m = true) ms))%nat
      <-> exists p, p ∈ patterns /\ RegExp_test p u = Some true).
Proof.
  intros H. apply mapM_Some in H.
  induction H as [|p m patterns ms Hp _ [IH1 IH2]].
  - split; [intros p Hp; by apply elem_of_nil in Hp|].
    split; [simpl; lia|]. intros (p & Hp & _). by apply elem_of_nil in Hp.
  - split.
    + intros p' [->|Hp']%elem_of_cons; [rewrite Hp; eauto|auto].
    + destruct m.
      * rewrite filter_cons_True by done. simpl. split; [|lia].
        intros _. exists p. split; [apply list_elem_of_here|exact Hp].
      * rewrite filter_cons_False by done. rewrite IH2. split.
        -- intros (p' & Hp' & Ht). exists p'. split; [by apply list_elem_of_further|done].
        -- intros (p' & [->|Hp']%elem_of_cons & Ht); [congruence|eauto].
Qed.

Lemma mapM_test_total (u : string) (patterns : list string) :
  (forall p, p ∈ patterns -> is_Some (RegExp_test p u)) ->
  is_Some (mapM (fun linkToSkip => RegExp_test linkToSkip u) patterns).
Proof.
  intros H. apply mapM_is_Some. apply Forall_forall. exact H.
Qed.

(** [is_skipped] answers [true] exactly when every pattern compiles and
    one of them matches. *)
Lemma is_skipped_true (o : CheckOptions) (u : string) (patterns : list string) :
  linksToSkip o = Some patterns ->
  (is_skipped o u = Some true
   <-> (forall p, p ∈ patterns -> is_Some (RegExp_test p u))
       /\ exists p, p ∈ patterns /\ RegExp_test p u = Some true).
Proof.
  intros Hl. unfold Checker.is_skipped, Checker.skips. rewrite Hl. simpl. split.
  - destruct (mapM _ patterns) as [ms|] eqn:Hm; simpl; [|discriminate].
    intros [= Hb]. apply bool_decide_eq_true in Hb.
    destruct (mapM_test_spec u patterns ms Hm) as [Hall Hex].
    split; [exact Hall|]. apply Hex, Hb.
  - intros [Hall Hex]. destruct (mapM_test_total u patterns Hall) as [ms Hm].
    rewrite Hm. simpl. f_equal. apply bool_decide_eq_true.
    apply (mapM_test_spec u patterns ms Hm), Hex.
Qed.

Lemma is_skipped_false (o : CheckOptions) (u : string) (patterns : list string) :
  linksToSkip o = Some patterns ->
  is_skipped o u = Some false ->
  forall p, p ∈ patterns -> RegExp_test p u = Some false.
Proof.
  intros Hl. unfold Checker.is_skipped, Checker.skips. rewrite Hl. simpl.
  destruct (mapM _ patterns) as [ms|] eqn:Hm; simpl; [|discriminate].
  intros [= Hb] p Hp. apply bool_decide_eq_false in Hb.
  destruct (mapM_test_spec u patterns ms Hm) as [Hall Hex].
  destruct (Hall p Hp) as [[] Hb']; [|exact Hb'].
  exfalso. apply Hb, Hex. eauto.
Qed.

Lemma step_skip_inv (a : Action) (s s' : Run) :
  skip_inv RegExp_test s -> step a s = Some s' -> skip_inv RegExp_test s'.
Proof.
  intros [Hreq Haw] H. unfold skip_inv.
  rewrite (step_checkOptions a s s' H).
  assert (Hdel : forall i p, p ∈ delete i (awaiting s) ->
            is_skipped (checkOptions s) (opts_url (fst p)) = Some false).
  { intros i p Hp. apply Haw. eapply list_elem_of_delete_inv, Hp. }
  destruct a as [|i r].
  - apply step_Start_inv in H as (t & q & Hq & _ & ->).
    destruct (crawl_enter_cases t (set_queue q s))
      as [[_ ->]|[_ [[_ ->]|[[_ ->]|[Hsk ->]]]]]; simpl in *; try (split; assumption).
    split.
    + intros q' [Hq'|Hq']%elem_of_app; [auto|].
      apply list_elem_of_singleton in Hq' as ->. exact Hsk.
    + intros p [Hp|Hp]%elem_of_app; [auto|].
      apply list_elem_of_singleton in Hp as ->. exact Hsk.
  - apply step_Reply_inv in H as (t & w & Hw & ->).
    assert (Ht : is_skipped (checkOptions s) (opts_url t) = Some false).
    { apply (Haw (t, w)). eapply list_elem_of_lookup_2, Hw. }
    set (s0 := set_awaiting (delete i (awaiting s)) s).
    assert (Hfin : (forall q, q ∈ requests (crawl_finish t r s0) ->
                      is_skipped (checkOptions s) (req_url q) = Some false)
                   /\ (forall p, p ∈ awaiting (crawl_finish t r s0) ->
                      is_skipped (checkOptions s) (opts_url (fst p)) = Some false)).
    { destruct (crawl_finish_fields t r s0)
        as (n & st & children & evs & _ & _ & _ & _ & Ha & Hr & _).
      rewrite Ha, Hr. simpl. split; [exact Hreq|apply Hdel]. }
    destruct w; [|exact Hfin].
    destruct (crawl_first_reply_cases t r s0) as [(res & _ & _ & ->)|[_ ->]];
      [|exact Hfin].
    simpl. split.
    + intros q' [Hq'|Hq']%elem_of_app; [auto|].
      apply list_elem_of_singleton in Hq' as ->. exact Ht.
    + intros p [Hp|Hp]%elem_of_app; [eauto|].
      apply list_elem_of_singleton in Hp as ->. exact Ht.
Qed.

(** What lines 60-68 leave in the options object. *)
Lemma check_setup_fields (options : CheckOptions) (rnd : Z) (listening : bool) :
  exists o,
    (check_setup options rnd listening = Fatal o
     \/ exists srv, check_setup options rnd listening = Ready o srv)
    /\ concurrency o = concurrency options
    /\ port o = port options
    /\ recurse o = recurse options
    /\ linksToSkip o
       = Some (default [] (linksToSkip options) ++ ["^mailto:"; "^irc:"; "^data:"])
    /\ path o = (if JS.startsWith (path options) "http" then path options
                 else if listening
                      then ("http://localhost:" ++ pretty (server_port options rnd))%string
                      else path options).
Proof.
  unfold check_setup. simpl.
  destruct (JS.startsWith (path options) "http"); simpl.
  - eexists. split; [right; eauto|]. simpl. auto.
  - destruct listening.
    + eexists. split; [right; eauto|]. simpl. auto.
    + eexists. split; [left; eauto|]. simpl. auto.
Qed.

(** C9: the patterns in force during a run are the caller's followed by
    the three built-in ones.  No request is ever issued for a URL that one
    of them matches.  A task that passes the dedup gate with such a URL
    (all patterns being well-formed) records one SKIPPED result carrying
    its parent, emits it, and ends without a request. *)
Theorem skipped_url_is_never_requested
        (options o : CheckOptions) (rnd : Z) (listening srv : bool)
        (acts : list Action) (s : Run) :
  check_setup options rnd listening = Ready o srv ->
  exec acts (check_seed o) = Some s ->
  exists patterns,
    linksToSkip (checkOptions s) = Some patterns
    /\ patterns = default [] (linksToSkip options) ++ ["^mailto:"; "^irc:"; "^data:"]
    /\ (forall q p, q ∈ requests s -> p ∈ patterns ->
          RegExp_test p (req_url q) = Some false)
    /\ (forall t rest,
          queue s = t :: rest ->
          (Z.of_nat (length (awaiting s)) < concurrency_limit (checkOptions s))%Z ->
          opts_url t ∉ cache s ->
          (forall p, p ∈ patterns -> is_Some (RegExp_test p (opts_url t))) ->
          (exists p, p ∈ patterns /\ RegExp_test p (opts_url t) = Some true) ->
          exists s', step Start s = Some s'
            /\ results s'
               = results s ++ [ {| url := opts_url t; status := None; state := SKIPPED;
                                   parent := opts_parent t |} ]
            /\ events s'
               = events s ++ [ link_event {| url := opts_url t; status := None;
                                              state := SKIPPED;
                                              parent := opts_parent t |} ]
            /\ requests s' = requests s /\ awaiting s' = awaiting s).
Proof.
  intros Hsetup Hrun.
  destruct (check_setup_fields options rnd listening)
    as (o' & [Hf|[srv' Hr]] & _ & _ & _ & Hskip & _); [congruence|].
  assert (o' = o) as -> by congruence.
  pose proof (exec_checkOptions _ _ _ Hrun) as Ho. simpl in Ho.
  eexists. split; [rewrite Ho; exact Hskip|]. split; [reflexivity|].
  assert (Hinv : skip_inv RegExp_test s).
  { eapply (exec_invariant (skip_inv RegExp_test)); [apply step_skip_inv| |exact Hrun].
    split; simpl; intros x Hx; by apply elem_of_nil in Hx. }
  destruct Hinv as [Hreq _]. rewrite Ho in Hreq. split.
  - intros q p Hq Hp. eapply is_skipped_false; [exact Hskip|apply Hreq, Hq|exact Hp].
  - intros t rest Hqueue Hlim Hfresh Hall Hex. simpl. rewrite Hqueue.
    rewrite decide_True by exact Hlim.
    eexists. split; [reflexivity|].
    unfold Checker.crawl_enter. simpl. rewrite decide_False by exact Hfresh.
    rewrite Ho. simpl.
    assert (Hsk : is_skipped o (opts_url t) = Some true)
      by (eapply is_skipped_true; eauto).
    rewrite Hsk. simpl. auto.
Qed.

(** *** Children *)

(** The flag of a child, read back: it is set only under [recurse] and the
    prefix test, and then the hosts agree unless a URL failed to parse. *)
Lemma childCrawl_true (o : CheckOptions) (u : string) :
  childCrawl URL_new o u = true ->
  recurse o = Some true
  /\ JS.startsWith u (path o) = true
  /\ (URL_new u None = None \/ URL_new (path o) None = None
      \/ exists parsedUrl pathUrl,
           URL_new u None = Some parsedUrl /\ URL_new (path o) None = Some pathUrl
           /\ host parsedUrl = host pathUrl).
Proof.
  unfold childCrawl.
  destruct (recurse o) as [[]|]; simpl; try discriminate.
  destruct (JS.startsWith u (path o)); simpl; try discriminate.
  destruct (URL_new u None) as [parsedUrl|]; [|auto].
  destruct (URL_new (path o) None) as [pathUrl|]; [|auto].
  intros Heq. apply String.eqb_eq in Heq. eauto 10.
Qed.

(** The [catch {}] of lines 196-200 leaves the flag as the prefix test set it. *)
Lemma childCrawl_parse_failure (o : CheckOptions) (u : string) :
  recurse o = Some true ->
  JS.startsWith u (path o) = true ->
  URL_new u None = None ->
  childCrawl URL_new o u = true.
Proof. intros Hr Hp Hu. unfold childCrawl. rewrite Hr, Hp, Hu. reflexivity. Qed.

(** *** The options object *)

(** C4, amended: [check] writes to the options only while it starts up:
    [linksToSkip] becomes the caller's list (or the empty one) followed by
    the three built-in patterns, and a [path] that does not start with
    [http] is replaced by the address of the local server once it
    listens.  [concurrency], [port] and [recurse] keep their values, and no
    move of the crawl changes any field. *)
Theorem options_change_only_at_startup
        (options : CheckOptions) (rnd : Z) (listening : bool)
        (acts : list Action) (out : CheckOutcome) :
  check RegExp_test URL_new getLinks options rnd listening acts = Some out ->
  (exists o', (out = Rejected o' \/ exists result, out = Resolved result o')
     /\ concurrency o' = concurrency options
     /\ port o' = port options
     /\ recurse o' = recurse options
     /\ linksToSkip o'
        = Some (default [] (linksToSkip options) ++ ["^mailto:"; "^irc:"; "^data:"])
     /\ path o' = (if JS.startsWith (path options) "http" then path options
                   else if listening
                        then ("http://localhost:" ++ pretty (server_port options rnd))%string
                        else path options))
  /\ (forall a s s', step a s = Some s' -> checkOptions s' = checkOptions s).
Proof.
  intros Hcheck. split; [|apply step_checkOptions].
  unfold check in Hcheck.
  destruct (check_setup_fields options rnd listening)
    as (o & [Hf|[srv Hr]] & Hfields).
  - rewrite Hf in Hcheck. injection Hcheck as <-. exists o. split; [eauto|exact Hfields].
  - rewrite Hr in Hcheck.
    destruct (exec acts (check_seed o)) as [s|] eqn:Hrun; simpl in Hcheck; [|discriminate].
    destruct (idle s); [|discriminate]. injection Hcheck as <-.
    rewrite (exec_checkOptions _ _ _ Hrun). simpl.
    exists o. split; [eauto|exact Hfields].
Qed.


(** ** Along a run *)

Lemma enqueue_nil (s : Run) : enqueue [] s = s.
Proof. destruct s. unfold enqueue. simpl. by rewrite app_nil_r. Qed.

(** [crawl_finish] pushes the result of the fetch and stops, or, for an
    eligible HTML page, goes on to announce the page and queue a child
    for each link of some list (the empty one when the extractor throws). *)
Lemma crawl_finish_cases (t : CrawlOptions) (r : option Response) (s : Run) :
  (crawl_finish t r s = push_result (fetched_result t r) s
   /\ (opts_crawl t = false \/ r = None
       \/ exists resp, r = Some resp /\ isHtml resp = false))
  \/ (opts_crawl t = true
      /\ exists resp urls,
           r = Some resp /\ isHtml resp = true
           /\ crawl_finish t r s
              = enqueue (map (child (checkOptions s) (opts_url t)) urls)
                  (emit (pagestart_event (opts_url t))
                        (push_result (fetched_result t r) s))).
Proof.
  unfold Checker.crawl_finish, fetched_result.
  destruct r as [resp|]; simpl.
  - destruct (opts_crawl t) eqn:Hc; simpl; [|left; auto].
    destruct (isHtml resp) eqn:Hh; [|left; eauto 6].
    right. split; [reflexivity|].
    destruct (getLinks (res_data resp) (opts_url t)) as [urls|].
    + exists resp, urls. auto.
    + exists resp, []. simpl. rewrite enqueue_nil. auto.
  - rewrite andb_false_r. left. auto.
Qed.

(** Induction over the moves of a run: a property of the state holds along
    every schedule when each of the seven moves keeps it. *)
Lemma run_invariant (P : Run -> Prop) :
  (forall s t q, P s -> queue s = t :: q -> opts_url t ∈ cache s ->
     P (set_queue q s)) ->
  (forall s t q, P s -> queue s = t :: q -> opts_url t ∉ cache s ->
     is_skipped (checkOptions s) (opts_url t) = None ->
     P (insert_cache (opts_url t) (set_queue q s))) ->
  (forall s t q, P s -> queue s = t :: q -> opts_url t ∉ cache s ->
     is_skipped (checkOptions s) (opts_url t) = Some true ->
     P (push_result {| url := opts_url t; status := None; state := SKIPPED;
                       parent := opts_parent t |}
                    (insert_cache (opts_url t) (set_queue q s)))) ->
  (forall s t q, P s -> queue s = t :: q -> opts_url t ∉ cache s ->
     is_skipped (checkOptions s) (opts_url t) = Some false ->
     (Z.of_nat (length (awaiting s)) < concurrency_limit (checkOptions s))%Z ->
     P (request {| method := if opts_crawl t then GET else HEAD;
                   req_url := opts_url t;
                   responseType := if opts_crawl t then text else stream |}
                t first_request (insert_cache (opts_url t) (set_queue q s)))) ->
  (forall s i t, P s -> awaiting s !! i = Some (t, first_request) ->
     P (request {| method := GET; req_url := opts_url t; responseType := stream |}
                t retry_request (set_awaiting (delete i (awaiting s)) s))) ->
  (forall s i t w r, P s -> awaiting s !! i = Some (t, w) ->
     (opts_crawl t = false \/ r = None
      \/ exists resp, r = Some resp /\ isHtml resp = false) ->
     P (push_result (fetched_result t r) (set_awaiting (delete i (awaiting s)) s))) ->
  (forall s i t w resp urls, P s -> awaiting s !! i = Some (t, w) ->
     opts_crawl t = true -> isHtml resp = true ->
     P (enqueue (map (child (checkOptions s) (opts_url t)) urls)
          (emit (pagestart_event (opts_url t))
             (push_result (fetched_result t (Some resp))
                (set_awaiting (delete i (awaiting s)) s))))) ->
  forall acts s s', P s -> exec acts s = Some s' -> P s'.
Proof.
  intros Hdiscard Hthrow Hskip Hrequest Hretry Hplain Hexpand.
  apply exec_invariant. intros a s s' HP Hstep.
  destruct a as [|i r].
  - apply step_Start_inv in Hstep as (t & q & Hq & Hlim & ->).
    destruct (crawl_enter_cases t (set_queue q s))
      as [[Hin ->]|[Hnin [[Hsk ->]|[[Hsk ->]|[Hsk ->]]]]]; simpl in *; eauto.
  - apply step_Reply_inv in Hstep as (t & w & Hw & ->).
    set (s0 := set_awaiting (delete i (awaiting s)) s).
    assert (Hfin : P (crawl_finish t r s0)).
    { destruct (crawl_finish_cases t r s0)
        as [[-> Hc]|(Hc & resp & urls & -> & Hh & ->)].
      - exact (Hplain s i t w r HP Hw Hc).
      - exact (Hexpand s i t w resp urls HP Hw Hc Hh). }
    destruct w; [|exact Hfin].
    destruct (crawl_first_reply_cases t r s0) as [(res & _ & _ & ->)|[_ ->]];
      [exact (Hretry s i t HP Hw)|exact Hfin].
Qed.

Lemma link_events_app (a b : list Event) :
  link_events (a ++ b) = link_events a ++ link_events b.
Proof. apply omap_app. Qed.

Lemma pagestarts_app (a b : list Event) :
  pagestarts (a ++ b) = pagestarts a ++ pagestarts b.
Proof. apply omap_app. Qed.

(** X1: every result is announced by one [link] event, and the [link]
    events carry the results in the order of the result list. *)
Theorem link_events_mirror_results (o : CheckOptions) (acts : list Action) (s : Run) :
  exec acts (check_seed o) = Some s ->
  link_events (events s) = results s.
Proof.
  apply (run_invariant (fun s => link_events (events s) = results s));
    simpl; intros; rewrite ?link_events_app; simpl; rewrite ?app_nil_r; congruence.
Qed.

Lemma fetched_result_fields (t : CrawlOptions) (r : option Response) :
  exists n st,
    fetched_result t r
    = {| url := opts_url t; status := Some n; state := st; parent := opts_parent t |}
    /\ (st = OK <-> (200 <= n < 300)%Z) /\ (st = BROKEN <-> ~ (200 <= n < 300)%Z)
    /\ n = match r with Some res => res_status res | None => 0%Z end.
Proof.
  unfold fetched_result. pose proof (outcome_state r) as H.
  destruct (outcome r) as [[[n st] data] html].
  destruct H as (Hok & Hbr & _ & Hn & _). eauto 10.
Qed.

Lemma parent_recorded_mono (o : CheckOptions) (s s' : Run) (par : option string) (u : string) :
  (forall p, p ∈ pagestarts (events s) -> p ∈ pagestarts (events s')) ->
  parent_recorded o s par u -> parent_recorded o s' par u.
Proof. destruct par; simpl; auto. Qed.

(** The referrers are kept track of along a run. *)
Lemma parents_invariant (o : CheckOptions) (acts : list Action) (s : Run) :
  exec acts (check_seed o) = Some s ->
  Forall (fun t => parent_recorded o s (opts_parent t) (opts_url t)) (queue s)
  /\ Forall (fun p => parent_recorded o s (opts_parent (fst p)) (opts_url (fst p)))
            (awaiting s)
  /\ Forall (fun res => parent_recorded o s (parent res) (url res)) (results s)
  /\ Forall (fun p => exists pres n, pres ∈ results s /\ url pres = p
                                      /\ status pres = Some n)
            (pagestarts (events s)).
Proof.
  intros Hrun.
  pose proof (exec_checkOptions _ _ _ Hrun) as Ho. simpl in Ho. revert Ho.
  revert acts s Hrun.
  cut (let P := fun s : Run =>
         checkOptions s = o ->
         Forall (fun t => parent_recorded o s (opts_parent t) (opts_url t)) (queue s)
         /\ Forall (fun p => parent_recorded o s (opts_parent (fst p)) (opts_url (fst p)))
                   (awaiting s)
         /\ Forall (fun res => parent_recorded o s (parent res) (url res)) (results s)
         /\ Forall (fun p => exists pres n, pres ∈ results s /\ url pres = p
                                             /\ status pres = Some n)
                   (pagestarts (events s)) in
       forall acts s, exec acts (check_seed o) = Some s -> P s).
  { intros H acts s Hrun. exact (H acts s Hrun). }
  intros P acts s. apply (run_invariant P); unfold P; clear P.
  - (* discarded *)
    intros s0 t q IH Hq _ Ho. destruct (IH Ho) as (Hqu & Haw & Hres & Hps).
    rewrite Hq in Hqu. apply Forall_cons in Hqu as [_ Hqu]. auto.
  - (* rejected *)
    intros s0 t q IH Hq _ _ Ho. destruct (IH Ho) as (Hqu & Haw & Hres & Hps).
    rewrite Hq in Hqu. apply Forall_cons in Hqu as [_ Hqu]. auto.
  - (* skipped *)
    intros s0 t q IH Hq _ _ Ho. destruct (IH Ho) as (Hqu & Haw & Hres & Hps).
    rewrite Hq in Hqu. apply Forall_cons in Hqu as [Ht Hqu].
    assert (Hmono : forall p, p ∈ pagestarts (events s0) ->
              p ∈ pagestarts (events s0 ++ [link_event
                {| url := opts_url t; status := None; state := SKIPPED;
                   parent := opts_parent t |}])).
    { intros p Hp. rewrite pagestarts_app. simpl. by rewrite app_nil_r. }
    simpl. split_and!.
    + eapply Forall_impl; [exact Hqu|]. intros x. by apply parent_recorded_mono.
    + eapply Forall_impl; [exact Haw|]. intros x. by apply parent_recorded_mono.
    + apply Forall_app. split.
      * eapply Forall_impl; [exact Hres|]. intros x. by apply parent_recorded_mono.
      * apply Forall_singleton. revert Ht. by apply parent_recorded_mono.
    + rewrite pagestarts_app. simpl. rewrite app_nil_r.
      eapply Forall_impl; [exact Hps|]. intros p (pres & n & Hin & Hu & Hst).
      exists pres, n. split; [|done]. apply elem_of_app. by left.
  - (* requested *)
    intros s0 t q IH Hq _ _ _ Ho. destruct (IH Ho) as (Hqu & Haw & Hres & Hps).
    rewrite Hq in Hqu. apply Forall_cons in Hqu as [Ht Hqu].
    simpl. split_and!; try done. apply Forall_app. split; [done|].
    by apply Forall_singleton.
  - (* retried *)
    intros s0 i t IH Hw Ho. destruct (IH Ho) as (Hqu & Haw & Hres & Hps).
    simpl. split_and!; try done. apply Forall_app. split.
    + by apply Forall_delete.
    + apply Forall_singleton. simpl.
      eapply (Forall_lookup_1 _ _ _ _ Haw Hw).
  - (* settled *)
    intros s0 i t w r IH Hw _ Ho. destruct (IH Ho) as (Hqu & Haw & Hres & Hps).
    pose proof (Forall_lookup_1 _ _ _ _ Haw Hw) as Ht. simpl in Ht.
    destruct (fetched_result_fields t r) as (n & st & -> & _).
    assert (Hmono : forall p, p ∈ pagestarts (events s0) ->
              p ∈ pagestarts (events s0 ++ [link_event
                {| url := opts_url t; status := Some n; state := st;
                   parent := opts_parent t |}])).
    { intros p Hp. rewrite pagestarts_app. simpl. by rewrite app_nil_r. }
    simpl. split_and!.
    + eapply Forall_impl; [exact Hqu|]. intros x. by apply parent_recorded_mono.
    + apply Forall_delete. eapply Forall_impl; [exact Haw|].
      intros x. by apply parent_recorded_mono.
    + apply Forall_app. split.
      * eapply Forall_impl; [exact Hres|]. intros x. by apply parent_recorded_mono.
      * apply Forall_singleton. revert Ht. by apply parent_recorded_mono.
    + rewrite pagestarts_app. simpl. rewrite app_nil_r.
      eapply Forall_impl; [exact Hps|]. intros p (pres & m & Hin & Hu & Hst).
      exists pres, m. split; [|done]. apply elem_of_app. by left.
  - (* expanded *)
    intros s0 i t w resp urls IH Hw _ _ Ho.
    destruct (IH Ho) as (Hqu & Haw & Hres & Hps).
    pose proof (Forall_lookup_1 _ _ _ _ Haw Hw) as Ht. simpl in Ht.
    destruct (fetched_result_fields t (Some resp)) as (n & st & -> & _).
    set (res := {| url := opts_url t; status := Some n; state := st;
                   parent := opts_parent t |}).
    assert (Hev : pagestarts ((events s0 ++ [link_event res])
                              ++ [pagestart_event (opts_url t)])
                  = pagestarts (events s0) ++ [opts_url t]).
    { rewrite !pagestarts_app. simpl. by rewrite app_nil_r. }
    assert (Hmono : forall p, p ∈ pagestarts (events s0) ->
              p ∈ pagestarts ((events s0 ++ [link_event res])
                              ++ [pagestart_event (opts_url t)])).
    { intros p Hp. rewrite Hev. apply elem_of_app. by left. }
    simpl. split_and!.
    + apply Forall_app. split.
      * eapply Forall_impl; [exact Hqu|]. intros x. by apply parent_recorded_mono.
      * apply Forall_forall. intros c Hc.
        apply list_elem_of_In, in_map_iff in Hc as (u & <- & _). simpl.
        rewrite Hev. apply elem_of_app. right. by apply list_elem_of_singleton.
    + apply Forall_delete. eapply Forall_impl; [exact Haw|].
      intros x. by apply parent_recorded_mono.
    + apply Forall_app. split.
      * eapply Forall_impl; [exact Hres|]. intros x. by apply parent_recorded_mono.
      * apply Forall_singleton. revert Ht. by apply parent_recorded_mono.
    + rewrite Hev. apply Forall_app. split.
      * eapply Forall_impl; [exact Hps|]. intros p (pres & m & Hin & Hu & Hst).
        exists pres, m. split; [|done]. apply elem_of_app. by left.
      * apply Forall_singleton. exists res, n. split; [|done].
        apply elem_of_app. right. by apply list_elem_of_singleton.
  - (* the seed *)
    intros _. simpl. split_and!; by repeat constructor.
Qed.

(** X2: the one result without a parent is the root's; every other
    result names as parent a page that was fetched (its result carries a
    status) and announced by a [pagestart] event. *)
Theorem parents_are_expanded_pages (o : CheckOptions) (acts : list Action) (s : Run) :
  exec acts (check_seed o) = Some s ->
  forall res, res ∈ results s ->
    match parent res with
    | None => url res = path o
    | Some p =>
        pagestart_event p ∈ events s
        /\ exists pres n, pres ∈ results s /\ url pres = p /\ status pres = Some n
    end.
Proof.
  intros Hrun res Hres.
  destruct (parents_invariant o acts s Hrun) as (_ & _ & Hr & Hps).
  pose proof (proj1 (Forall_forall _ _) Hr res Hres) as Hpar.
  unfold parent_recorded in Hpar. destruct (parent res) as [p|]; [|exact Hpar].
  split.
  - unfold pagestarts in Hpar. apply list_elem_of_omap in Hpar as (e & He & Heq).
    destruct e; [discriminate|]. by injection Heq as ->.
  - exact (proj1 (Forall_forall _ _) Hps p Hpar).
Qed.

(** X3: the first result of a run is the root's: it has the root URL and
    no parent.  (There is none while the root is in flight, and none at
    all when the root task is rejected.) *)
Theorem root_is_first_result (o : CheckOptions) (acts : list Action) (s : Run) :
  exec acts (check_seed o) = Some s ->
  results s = []
  \/ exists r rest, results s = r :: rest /\ url r = path o /\ parent r = None.
Proof.
  set (root := {| opts_url := path o; opts_parent := None; opts_crawl := true |}).
  intros Hrun.
  assert (H : (results s = [] /\ Forall (fun t => t = root) (queue s)
               /\ Forall (fun p => fst p = root) (awaiting s))
              \/ exists r rest, results s = r :: rest /\ url r = path o
                                /\ parent r = None); [|tauto].
  revert Hrun.
  apply (run_invariant (fun s =>
    (results s = [] /\ Forall (fun t => t = root) (queue s)
     /\ Forall (fun p => fst p = root) (awaiting s))
    \/ exists r rest, results s = r :: rest /\ url r = path o /\ parent r = None)).
  - intros s0 t q [(Hr & Hq & Ha)|HB] Hqs _; [left|right; exact HB].
    rewrite Hqs in Hq. apply Forall_cons in Hq as [_ Hq]. auto.
  - intros s0 t q [(Hr & Hq & Ha)|HB] Hqs _ _; [left|right; exact HB].
    rewrite Hqs in Hq. apply Forall_cons in Hq as [_ Hq]. auto.
  - intros s0 t q [(Hr & Hq & Ha)|(r0 & rest & Hr & Hu & Hp)] Hqs _ _; right; simpl.
    + rewrite Hqs in Hq. apply Forall_cons in Hq as [-> _]. rewrite Hr. simpl. eauto.
    + rewrite Hr. simpl. eauto.
  - intros s0 t q [(Hr & Hq & Ha)|HB] Hqs _ _ _; [left|right; exact HB].
    rewrite Hqs in Hq. apply Forall_cons in Hq as [Ht Hq]. simpl.
    split_and!; try done. apply Forall_app. split; [done|]. by apply Forall_singleton.
  - intros s0 i t [(Hr & Hq & Ha)|HB] Hw; [left|right; exact HB].
    simpl. split_and!; try done. apply Forall_app. split; [by apply Forall_delete|].
    apply Forall_singleton. exact (Forall_lookup_1 _ _ _ _ Ha Hw).
  - intros s0 i t w r [(Hr & Hq & Ha)|(r0 & rest & Hr & Hu & Hp)] Hw _; right; simpl.
    + pose proof (Forall_lookup_1 _ _ _ _ Ha Hw) as Ht. simpl in Ht. subst t.
      destruct (fetched_result_fields root r) as (n & st & -> & _).
      rewrite Hr. simpl. eauto.
    + rewrite Hr. simpl. eauto.
  - intros s0 i t w resp urls [(Hr & Hq & Ha)|(r0 & rest & Hr & Hu & Hp)] Hw _ _;
      right; simpl.
    + pose proof (Forall_lookup_1 _ _ _ _ Ha Hw) as Ht. simpl in Ht. subst t.
      destruct (fetched_result_fields root (Some resp)) as (n & st & -> & _).
      rewrite Hr. simpl. eauto.
    + rewrite Hr. simpl. eauto.
  - left. simpl. split_and!; by repeat constructor.
Qed.

Lemma prefix_refl (s : string) : String.prefix s s = true.
Proof.
  induction s as [|c s IH]; [reflexivity|]. simpl.
  destruct (ascii_dec c c); [exact IH|done].
Qed.

(** X4: a page is fetched for its body (GET with a text response) and
    expanded only if it is the root or, [recurse] being set, its URL
    starts with the root path; so every such URL starts with the root
    path, and without [recurse] the root is the only one. *)
Theorem expanded_pages_are_in_scope (o : CheckOptions) (acts : list Action) (s : Run) :
  exec acts (check_seed o) = Some s ->
  forall u,
    pagestart_event u ∈ events s
    \/ {| method := GET; req_url := u; responseType := text |} ∈ requests s ->
    JS.startsWith u (path o) = true
    /\ (recurse o <> Some true -> u = path o).
Proof.
  intros Hrun.
  pose proof (exec_checkOptions _ _ _ Hrun) as Ho. simpl in Ho. revert Ho.
  set (R := fun u : string =>
    u = path o \/ (recurse o = Some true /\ JS.startsWith u (path o) = true)).
  set (Q := fun t : CrawlOptions => opts_crawl t = true -> R (opts_url t)).
  assert (HR : forall u, R u ->
    JS.startsWith u (path o) = true /\ (recurse o <> Some true -> u = path o)).
  { intros u [->|[Hrec Hpre]]; [split; [apply prefix_refl|done]|]. split; [done|]. done. }
  cut (checkOptions s = o ->
       Forall Q (queue s) /\ Forall (fun p => Q (fst p)) (awaiting s)
       /\ Forall R (pagestarts (events s))
       /\ Forall (fun q => responseType q = text -> R (req_url q)) (requests s)).
  { intros H Ho u Hu. destruct (H Ho) as (_ & _ & Hps & Hrq). apply HR.
    destruct Hu as [Hu|Hu].
    - apply (proj1 (Forall_forall _ _) Hps). unfold pagestarts.
      apply list_elem_of_omap. by exists (pagestart_event u).
    - by apply (proj1 (Forall_forall _ _) Hrq _ Hu). }
  clear HR. revert Hrun.
  apply (run_invariant (fun s => checkOptions s = o ->
       Forall Q (queue s) /\ Forall (fun p => Q (fst p)) (awaiting s)
       /\ Forall R (pagestarts (events s))
       /\ Forall (fun q => responseType q = text -> R (req_url q)) (requests s))).
  - intros s0 t q IH Hq _ Ho. destruct (IH Ho) as (Hqu & Haw & Hps & Hrq).
    rewrite Hq in Hqu. apply Forall_cons in Hqu as [_ Hqu]. auto.
  - intros s0 t q IH Hq _ _ Ho. destruct (IH Ho) as (Hqu & Haw & Hps & Hrq).
    rewrite Hq in Hqu. apply Forall_cons in Hqu as [_ Hqu]. auto.
  - intros s0 t q IH Hq _ _ Ho. destruct (IH Ho) as (Hqu & Haw & Hps & Hrq).
    rewrite Hq in Hqu. apply Forall_cons in Hqu as [_ Hqu]. simpl.
    rewrite pagestarts_app. simpl. rewrite app_nil_r. auto.
  - intros s0 t q IH Hq _ _ _ Ho. destruct (IH Ho) as (Hqu & Haw & Hps & Hrq).
    rewrite Hq in Hqu. apply Forall_cons in Hqu as [Ht Hqu]. simpl.
    split_and!; try done.
    + apply Forall_app. split; [done|]. by apply Forall_singleton.
    + apply Forall_app. split; [done|]. apply Forall_singleton. simpl.
      destruct (opts_crawl t) eqn:Hc; [intros _; by apply Ht|discriminate].
  - intros s0 i t IH Hw Ho. destruct (IH Ho) as (Hqu & Haw & Hps & Hrq). simpl.
    split_and!; try done.
    + apply Forall_app. split; [by apply Forall_delete|].
      apply Forall_singleton. exact (Forall_lookup_1 _ _ _ _ Haw Hw).
    + apply Forall_app. split; [done|]. apply Forall_singleton. discriminate.
  - intros s0 i t w r IH Hw _ Ho. destruct (IH Ho) as (Hqu & Haw & Hps & Hrq). simpl.
    rewrite pagestarts_app. simpl. rewrite app_nil_r.
    split_and!; try done. by apply Forall_delete.
  - intros s0 i t w resp urls IH Hw Hc _ Ho.
    destruct (IH Ho) as (Hqu & Haw & Hps & Hrq). simpl.
    pose proof (Forall_lookup_1 _ _ _ _ Haw Hw) as Ht. simpl in Ht.
    rewrite !pagestarts_app. simpl. rewrite app_nil_r.
    split_and!; try done.
    + apply Forall_app. split; [done|]. apply Forall_forall. intros c Hin.
      apply list_elem_of_In, in_map_iff in Hin as (u & <- & _).
      intros Hcc. simpl in Hcc, Ho. rewrite Ho in Hcc.
      apply childCrawl_true in Hcc as (Hrec & Hpre & _). right. auto.
    + by apply Forall_delete.
    + apply Forall_app. split; [done|]. apply Forall_singleton. by apply Ht.
  - intros _. simpl. split_and!; try by constructor.
    apply Forall_singleton. intros _. by left.
Qed.

Lemma filter_length_0 {A : Type} (P : A -> Prop) `{forall x, Decision (P x)} (l : list A) :
  length (filter P l) = 0%nat <-> Forall (fun x => ~ P x) l.
Proof.
  induction l as [|x l IH]; [split; [constructor|reflexivity]|].
  destruct (decide (P x)) as [Hx|Hx].
  - rewrite filter_cons_True by done. simpl. split; [discriminate|].
    intros HF. apply Forall_cons in HF as [Hn _]. done.
  - rewrite filter_cons_False by done. rewrite IH. split.
    + intros HF. by constructor.
    + intros HF. by apply Forall_cons in HF as [_ HF].
Qed.

(** The state of each result is the one its status commands. *)
Lemma results_state_status (o : CheckOptions) (acts : list Action) (s : Run) :
  exec acts (check_seed o) = Some s ->
  Forall (fun res => match status res with
                     | None => state res = SKIPPED
                     | Some n => (state res = OK <-> (200 <= n < 300)%Z)
                                 /\ (state res = BROKEN <-> ~ (200 <= n < 300)%Z)
                     end) (results s).
Proof.
  apply (run_invariant (fun s => Forall (fun res =>
    match status res with
    | None => state res = SKIPPED
    | Some n => (state res = OK <-> (200 <= n < 300)%Z)
                /\ (state res = BROKEN <-> ~ (200 <= n < 300)%Z)
    end) (results s))); simpl; intros; try done.
  - apply Forall_app. split; [done|]. by apply Forall_singleton.
  - destruct (fetched_result_fields t r) as (n & st & -> & Hok & Hbr & _).
    apply Forall_app. split; [done|]. by apply Forall_singleton.
  - destruct (fetched_result_fields t (Some resp)) as (n & st & -> & Hok & Hbr & _).
    apply Forall_app. split; [done|]. by apply Forall_singleton.
Qed.

(** X5: the report of a run passes exactly when every result is either
    without status (skipped) or has a status in [200,300). *)
Theorem passed_iff_all_skipped_or_2xx (o : CheckOptions) (acts : list Action) (s : Run) :
  exec acts (check_seed o) = Some s ->
  passed (check_result s) = true
  <-> forall res, res ∈ results s ->
        status res = None \/ exists n, status res = Some n /\ (200 <= n < 300)%Z.
Proof.
  intros Hrun. pose proof (results_state_status o acts s Hrun) as Hinv.
  unfold check_result. simpl. rewrite bool_decide_eq_true, filter_length_0.
  rewrite !Forall_forall in *. split.
  - intros Hnb res Hres. specialize (Hinv res Hres). specialize (Hnb res Hres).
    destruct (status res) as [n|]; [right|by left].
    exists n. split; [done|]. destruct Hinv as [_ Hbr].
    destruct (decide (200 <= n < 300)%Z) as [Hin|Hout]; [done|].
    destruct Hnb. by apply Hbr.
  - intros Hall res Hres Hb. specialize (Hinv res Hres).
    destruct (Hall res Hres) as [Hn|(n & Hn & Hrange)]; rewrite Hn in Hinv.
    + congruence.
    + destruct Hinv as [_ Hbr]. by apply Hbr in Hb.
Qed.

Lemma filter_map_length {A : Type} (f : A -> string) (u : string) (l : list A) :
  length (filter (fun x => x = u) (map f l)) = length (filter (fun a => f a = u) l).
Proof.
  induction l as [|a l IH]; [reflexivity|]. simpl map.
  destruct (decide (f a = u)) as [Ha|Ha].
  - rewrite !filter_cons_True by done. simpl. by rewrite IH.
  - rewrite !filter_cons_False by done. exact IH.
Qed.

Lemma NoDup_filter_eq_length (u : string) (l : list string) :
  NoDup l -> (length (filter (fun x => x = u) l) <= 1)%nat.
Proof.
  induction 1 as [|x l Hx Hnd IH]; [simpl; lia|].
  destruct (decide (x = u)) as [->|Hne].
  - rewrite filter_cons_True by done. simpl.
    assert (length (filter (fun x => x = u) l) = 0%nat) as ->; [|lia].
    apply filter_length_0. apply Forall_forall. intros y Hy ->. done.
  - rewrite filter_cons_False by done. exact IH.
Qed.

Lemma issued_sum_bound (u : string) (l : list (CrawlOptions * Await)) :
  (sum_list_with (fun p => if decide (opts_url (fst p) = u) then issued (snd p) else 0%nat) l
   <= 2 * length (filter (fun p => opts_url (fst p) = u) l))%nat.
Proof.
  induction l as [|p l IH]; [simpl; lia|]. simpl sum_list_with.
  destruct (decide (opts_url (fst p) = u)) as [Hp|Hp].
  - rewrite filter_cons_True by done. simpl length.
    assert (issued (snd p) <= 2)%nat by (destruct (snd p); simpl; lia). lia.
  - rewrite filter_cons_False by done. lia.
Qed.

Lemma issued_sum_delete (u : string) (l : list (CrawlOptions * Await)) (i : nat)
      (t : CrawlOptions) (w : Await) :
  l !! i = Some (t, w) ->
  sum_list_with (fun p => if decide (opts_url (fst p) = u) then issued (snd p) else 0%nat) l
  = ((if decide (opts_url t = u) then issued w else 0)
     + sum_list_with (fun p => if decide (opts_url (fst p) = u) then issued (snd p)
                               else 0%nat) (delete i l))%nat.
Proof.
  intros Hl. rewrite (delete_Permutation l i _ Hl) at 1. reflexivity.
Qed.

(** The requests issued for [u] are accounted for by its result (two at
    most) or by its suspended task (one before the retry, two after). *)
Lemma requests_accounted (u : string) (o : CheckOptions) (acts : list Action) (s : Run) :
  exec acts (check_seed o) = Some s ->
  (length (filter (fun q => req_url q = u) (requests s))
   <= 2 * length (filter (fun r => url r = u) (results s))
      + sum_list_with (fun p => if decide (opts_url (fst p) = u) then issued (snd p)
                                else 0%nat) (awaiting s))%nat.
Proof.
  apply (run_invariant (fun s =>
    (length (filter (fun q => req_url q = u) (requests s))
     <= 2 * length (filter (fun r => url r = u) (results s))
        + sum_list_with (fun p => if decide (opts_url (fst p) = u) then issued (snd p)
                                  else 0%nat) (awaiting s))%nat)); simpl.
  - auto.
  - auto.
  - intros s0 t q IH _ _ _. rewrite filter_app, length_app. lia.
  - intros s0 t q IH _ _ _ _.
    rewrite filter_app, length_app, sum_list_with_app. simpl.
    destruct (decide (opts_url t = u)) as [Ht|Ht].
    + rewrite filter_cons_True by done. simpl. lia.
    + rewrite filter_cons_False by done. simpl. lia.
  - intros s0 i t IH Hw. rewrite (issued_sum_delete u _ i t _ Hw) in IH.
    rewrite filter_app, length_app, sum_list_with_app. simpl.
    destruct (decide (opts_url t = u)) as [Ht|Ht].
    + rewrite filter_cons_True by done. simpl in *. lia.
    + rewrite filter_cons_False by done. simpl in *. lia.
  - intros s0 i t w r IH Hw _. rewrite (issued_sum_delete u _ i t _ Hw) in IH.
    destruct (fetched_result_fields t r) as (n & st & -> & _).
    rewrite filter_app, length_app.
    destruct (decide (opts_url t = u)) as [Ht|Ht].
    + rewrite filter_cons_True by done. simpl.
      assert (issued w <= 2)%nat by (destruct w; simpl; lia). lia.
    + rewrite filter_cons_False by done. simpl. lia.
  - intros s0 i t w resp urls IH Hw _ _. rewrite (issued_sum_delete u _ i t _ Hw) in IH.
    destruct (fetched_result_fields t (Some resp)) as (n & st & -> & _).
    rewrite filter_app, length_app.
    destruct (decide (opts_url t = u)) as [Ht|Ht].
    + rewrite filter_cons_True by done. simpl.
      assert (issued w <= 2)%nat by (destruct w; simpl; lia). lia.
    + rewrite filter_cons_False by done. simpl. lia.
  - lia.
Qed.

(** X7: no URL is requested more than twice in a run (the request and,
    after a 405, its one retry), and only URLs recorded in the cache are
    requested. *)
Theorem at_most_two_requests_per_url (o : CheckOptions) (acts : list Action) (s : Run) :
  exec acts (check_seed o) = Some s ->
  (forall u, (length (filter (fun q => req_url q = u) (requests s)) <= 2)%nat)
  /\ (forall q, q ∈ requests s -> req_url q ∈ cache s).
Proof.
  intros Hrun. split.
  - intros u. pose proof (requests_accounted u o acts s Hrun) as Hacc.
    pose proof (issued_sum_bound u (awaiting s)) as Hsum.
    assert (Hnd : NoDup (dispatched s)).
    { assert (Hinv : dedup_inv s); [|by destruct Hinv].
      eapply (exec_invariant dedup_inv); [apply step_dedup_inv| |exact Hrun].
      apply check_seed_dedup_inv. }
    apply (NoDup_filter_eq_length u) in Hnd. unfold dispatched in Hnd.
    rewrite filter_app, length_app, !filter_map_length in Hnd. lia.
  - assert (H : (forall q, q ∈ requests s -> req_url q ∈ cache s)
                /\ (forall p, p ∈ awaiting s -> opts_url (fst p) ∈ cache s));
      [|by destruct H].
    revert Hrun.
    apply (run_invariant (fun s =>
      (forall q, q ∈ requests s -> req_url q ∈ cache s)
      /\ (forall p, p ∈ awaiting s -> opts_url (fst p) ∈ cache s))); simpl.
    + auto.
    + intros s0 t q [IH1 IH2] _ _ _. split; intros x Hx;
        [apply IH1 in Hx|apply IH2 in Hx]; set_solver.
    + intros s0 t q [IH1 IH2] _ _ _. split; intros x Hx;
        [apply IH1 in Hx|apply IH2 in Hx]; set_solver.
    + intros s0 t q [IH1 IH2] _ _ _ _. split; intros x Hx;
        (apply elem_of_app in Hx as [Hx|Hx];
         [first [apply IH1 in Hx|apply IH2 in Hx]; set_solver|]);
        apply list_elem_of_singleton in Hx as ->; simpl; set_solver.
    + intros s0 i t [IH1 IH2] Hw.
      assert (Ht : opts_url t ∈ cache s0).
      { apply (IH2 (t, first_request)). eapply list_elem_of_lookup_2, Hw. }
      split; intros x Hx; (apply elem_of_app in Hx as [Hx|Hx];
        [|apply list_elem_of_singleton in Hx as ->; exact Ht]).
      * by apply IH1.
      * apply IH2. eapply list_elem_of_delete_inv, Hx.
    + intros s0 i t w r [IH1 IH2] _ _. split; [exact IH1|].
      intros x Hx. apply IH2. eapply list_elem_of_delete_inv, Hx.
    + intros s0 i t w resp urls [IH1 IH2] _ _ _. split; [exact IH1|].
      intros x Hx. apply IH2. eapply list_elem_of_delete_inv, Hx.
    + split; intros x Hx; by apply elem_of_nil in Hx.
Qed.

Lemma is_skipped_total (o : CheckOptions) (u : string) (patterns : list string) :
  linksToSkip o = Some patterns ->
  (forall p, p ∈ patterns -> is_Some (RegExp_test p u)) ->
  is_Some (is_skipped o u).
Proof.
  intros Hl Hall. unfold Checker.is_skipped, Checker.skips. rewrite Hl. simpl.
  destruct (mapM_test_total u patterns Hall) as [ms ->]. simpl. eauto.
Qed.

(** X8: when every skip pattern is a well-formed regular expression, the
    cache holds exactly the URLs that have a result or a suspended task;
    so once the queue is idle, every visited URL has a result (and, the
    result URLs being distinct, exactly one). *)
Theorem every_visited_url_has_a_result
        (o : CheckOptions) (patterns : list string) (acts : list Action) (s : Run) :
  linksToSkip o = Some patterns ->
  (forall p u, p ∈ patterns -> is_Some (RegExp_test p u)) ->
  exec acts (check_seed o) = Some s ->
  (forall u, u ∈ cache s <-> u ∈ dispatched s)
  /\ (idle s = true ->
      forall u, u ∈ cache s <-> exists res, res ∈ results s /\ url res = u).
Proof.
  intros Hl Hall Hrun.
  assert (Hinv : forall u, u ∈ cache s <-> u ∈ dispatched s).
  { pose proof (exec_checkOptions _ _ _ Hrun) as Ho. simpl in Ho. revert Ho Hrun.
    cut (exec acts (check_seed o) = Some s ->
         checkOptions s = o -> forall u, u ∈ cache s <-> u ∈ dispatched s); [auto|].
    apply (run_invariant (fun s => checkOptions s = o ->
             forall u, u ∈ cache s <-> u ∈ dispatched s)).
    - intros s0 t q IH _ _ Ho. exact (IH Ho).
    - intros s0 t q _ _ _ Hsk Ho. simpl in Ho. rewrite Ho in Hsk.
      destruct (is_skipped_total o (opts_url t) patterns Hl (fun p => Hall p _))
        as [b Hb]. congruence.
    - intros s0 t q IH _ _ _ Ho u. rewrite dispatched_push. simpl.
      rewrite elem_of_cons, elem_of_union, elem_of_singleton.
      rewrite (IH Ho u). reflexivity.
    - intros s0 t q IH _ _ _ _ Ho u. rewrite dispatched_request. simpl.
      rewrite elem_of_cons, elem_of_union, elem_of_singleton.
      rewrite (IH Ho u). reflexivity.
    - intros s0 i t IH Hw Ho u. rewrite dispatched_request.
      rewrite (IH Ho u), (dispatched_resume i t _ s0 Hw). reflexivity.
    - intros s0 i t w r IH Hw _ Ho u. rewrite dispatched_push.
      destruct (fetched_result_fields t r) as (n & st & -> & _). simpl.
      rewrite (IH Ho u), (dispatched_resume i t _ s0 Hw). reflexivity.
    - intros s0 i t w resp urls IH Hw _ _ Ho u.
      change (dispatched (enqueue _ (emit _ ?x))) with (dispatched x).
      rewrite dispatched_push.
      destruct (fetched_result_fields t (Some resp)) as (n & st & -> & _). simpl.
      rewrite (IH Ho u), (dispatched_resume i t _ s0 Hw). reflexivity.
    - intros _ u. simpl. unfold dispatched. simpl. set_solver. }
  split; [exact Hinv|]. intros Hidle u. rewrite Hinv.
  unfold idle in Hidle. apply andb_true_iff in Hidle as [_ Ha].
  apply bool_decide_eq_true in Ha. unfold dispatched. rewrite Ha. simpl.
  rewrite app_nil_r. split.
  - intros Hin. apply list_elem_of_In, in_map_iff in Hin as (res & Hu & Hin).
    exists res. split; [by apply list_elem_of_In|done].
  - intros (res & Hin & <-). apply list_elem_of_In, in_map, list_elem_of_In, Hin.
Qed.

Lemma is_skipped_Some (o : CheckOptions) (u : string) (patterns : list string) (b : bool) :
  linksToSkip o = Some patterns ->
  is_skipped o u = Some b ->
  (forall p, p ∈ patterns -> is_Some (RegExp_test p u))
  /\ (b = true <-> exists p, p ∈ patterns /\ RegExp_test p u = Some true).
Proof.
  intros Hl Hb. destruct b.
  - apply (is_skipped_true o u patterns Hl) in Hb as [Hall Hex]. tauto.
  - pose proof (is_skipped_false o u patterns Hl Hb) as Hf. split.
    + intros p Hp. rewrite (Hf p Hp). eauto.
    + split; [discriminate|]. intros (p & Hp & Ht). rewrite (Hf p Hp) in Ht. discriminate.
Qed.

(** X9: whether a URL is skipped depends only on which patterns are
    configured, not on their order or on repetitions (so the built-in
    patterns pushed again by a second [check] on the same options object
    change no decision). *)
Theorem skip_decision_depends_on_pattern_set
        (o1 o2 : CheckOptions) (l1 l2 : list string) (u : string) :
  linksToSkip o1 = Some l1 ->
  linksToSkip o2 = Some l2 ->
  (forall p, p ∈ l1 <-> p ∈ l2) ->
  is_skipped o1 u = is_skipped o2 u.
Proof.
  intros H1 H2 Hset.
  destruct (is_skipped o1 u) as [b1|] eqn:E1, (is_skipped o2 u) as [b2|] eqn:E2.
  - destruct (is_skipped_Some o1 u l1 b1 H1 E1) as [_ Hb1].
    destruct (is_skipped_Some o2 u l2 b2 H2 E2) as [_ Hb2].
    f_equal. apply eq_true_iff_eq. rewrite Hb1, Hb2.
    split; intros (p & Hp & Ht); exists p; (split; [by apply Hset|done]).
  - destruct (is_skipped_Some o1 u l1 b1 H1 E1) as [Hall _].
    destruct (is_skipped_total o2 u l2 H2) as [b Hb]; [|congruence].
    intros p Hp. apply Hall. by apply Hset.
  - destruct (is_skipped_Some o2 u l2 b2 H2 E2) as [Hall _].
    destruct (is_skipped_total o1 u l1 H1) as [b Hb]; [|congruence].
    intros p Hp. apply Hall. by apply Hset.
  - reflexivity.
Qed.

(** X10: the URL that seeds the crawl always starts with [http].  A path
    that does so is kept and no server is started; any other path is
    replaced by [http://localhost:<port>], where the port is the given
    one, or one in 5000..6000 when the given one is absent or 0. *)
Theorem seed_url_is_http
        (options o : CheckOptions) (rnd : Z) (listening srv : bool) :
  (0 <= rnd <= 1000)%Z ->
  check_setup options rnd listening = Ready o srv ->
  JS.startsWith (path o) "http" = true
  /\ queue (check_seed o)
     = [ {| opts_url := path o; opts_parent := None; opts_crawl := true |} ]
  /\ (if JS.startsWith (path options) "http"
      then srv = false /\ path o = path options
      else srv = true /\ listening = true
           /\ exists p, path o = ("http://localhost:" ++ pretty p)%string
                /\ match port options with
                   | Some q => if (q =? 0)%Z then (5000 <= p <= 6000)%Z else p = q
                   | None => (5000 <= p <= 6000)%Z
                   end).
Proof.
  intros Hrnd. unfold check_setup. simpl.
  destruct (JS.startsWith (path options) "http") eqn:Hp; simpl.
  - intros [= <- <-]. simpl. auto.
  - destruct listening; [|discriminate]. intros [= <- <-]. simpl.
    split; [reflexivity|]. split; [reflexivity|]. split_and!; try done.
    exists (server_port options rnd). split; [reflexivity|].
    unfold server_port. destruct (port options) as [q|]; [|lia].
    destruct (q =? 0)%Z; [lia|reflexivity].
Qed.

(** The [crawl] flag of a child, exactly: [recurse] is set, the link
    starts with the root path, and the hosts of the two URLs are equal or
    one of the two does not parse. *)
Lemma childCrawl_iff (o : CheckOptions) (u : string) :
  childCrawl URL_new o u = true
  <-> recurse o = Some true
      /\ JS.startsWith u (path o) = true
      /\ match URL_new u None, URL_new (path o) None with
         | Some parsedUrl, Some pathUrl => host parsedUrl = host pathUrl
         | _, _ => True
         end.
Proof.
  unfold childCrawl.
  destruct (recurse o) as [[]|]; simpl; try (split; [discriminate|]; intros [? _]; done).
  destruct (JS.startsWith u (path o)); simpl;
    try (split; [discriminate|]; intros (_ & ? & _); done).
  destruct (URL_new u None) as [parsedUrl|]; [|tauto].
  destruct (URL_new (path o) None) as [pathUrl|]; [|tauto].
  rewrite String.eqb_eq. tauto.
Qed.

(** X18: a result is SKIPPED exactly when its URL matches a skip pattern:
    for every result, the skip test of its URL answers [true] if the
    result is SKIPPED and [false] otherwise. *)
Theorem skipped_results_match_a_pattern (o : CheckOptions) (acts : list Action) (s : Run) :
  exec acts (check_seed o) = Some s ->
  forall res, res ∈ results s ->
    is_skipped o (url res) = Some (bool_decide (state res = SKIPPED)).
Proof.
  intros Hrun.
  pose proof (exec_checkOptions _ _ _ Hrun) as Ho. simpl in Ho. revert Ho Hrun.
  cut (exec acts (check_seed o) = Some s ->
       checkOptions s = o ->
       Forall (fun res => is_skipped o (url res)
                          = Some (bool_decide (state res = SKIPPED))) (results s)
       /\ Forall (fun p => is_skipped o (opts_url (fst p)) = Some false) (awaiting s)).
  { intros H Ho Hrun res Hres. destruct (H Hrun Ho) as [Hr _].
    exact (proj1 (Forall_forall _ _) Hr res Hres). }
  assert (Hfetched : forall t r,
    is_skipped o (opts_url t) = Some false ->
    is_skipped o (url (fetched_result t r))
    = Some (bool_decide (state (fetched_result t r) = SKIPPED))).
  { intros t r Ht. destruct (fetched_result_fields t r) as (n & st & -> & Hok & Hbr & _).
    simpl. rewrite Ht. f_equal. symmetry. apply bool_decide_eq_false. intros ->.
    destruct (decide (200 <= n < 300)%Z) as [Hin|Hout].
    - apply Hok in Hin. discriminate.
    - apply Hbr in Hout. discriminate. }
  apply (run_invariant (fun s => checkOptions s = o ->
       Forall (fun res => is_skipped o (url res)
                          = Some (bool_decide (state res = SKIPPED))) (results s)
       /\ Forall (fun p => is_skipped o (opts_url (fst p)) = Some false) (awaiting s)));
    simpl.
  - auto.
  - auto.
  - intros s0 t q IH _ _ Hsk Ho. destruct (IH Ho) as [Hr Ha]. split; [|done].
    apply Forall_app. split; [done|]. apply Forall_singleton. simpl. by rewrite <- Ho.
  - intros s0 t q IH _ _ Hsk _ Ho. destruct (IH Ho) as [Hr Ha]. split; [done|].
    apply Forall_app. split; [done|]. apply Forall_singleton. simpl. by rewrite <- Ho.
  - intros s0 i t IH Hw Ho. destruct (IH Ho) as [Hr Ha]. split; [done|].
    apply Forall_app. split; [by apply Forall_delete|].
    apply Forall_singleton. exact (Forall_lookup_1 _ _ _ _ Ha Hw).
  - intros s0 i t w r IH Hw _ Ho. destruct (IH Ho) as [Hr Ha].
    split; [|by apply Forall_delete].
    apply Forall_app. split; [done|]. apply Forall_singleton. apply Hfetched.
    exact (Forall_lookup_1 _ _ _ _ Ha Hw).
  - intros s0 i t w resp urls IH Hw _ _ Ho. destruct (IH Ho) as [Hr Ha].
    split; [|by apply Forall_delete].
    apply Forall_app. split; [done|]. apply Forall_singleton. apply Hfetched.
    exact (Forall_lookup_1 _ _ _ _ Ha Hw).
  - intros _. split; constructor.
Qed.

(** X19: the pages are announced in the order of their results, each at
    most once: the [pagestart] URLs form a duplicate-free subsequence of
    the result URLs. *)
Theorem pagestarts_follow_results (o : CheckOptions) (acts : list Action) (s : Run) :
  exec acts (check_seed o) = Some s ->
  pagestarts (events s) `sublist_of` map url (results s)
  /\ NoDup (pagestarts (events s)).
Proof.
  intros Hrun.
  assert (Hsub : pagestarts (events s) `sublist_of` map url (results s)).
  { revert Hrun.
    apply (run_invariant (fun s =>
             pagestarts (events s) `sublist_of` map url (results s))).
    - auto.
    - auto.
    - intros s0 t q IH _ _ _. simpl. rewrite pagestarts_app, map_app. simpl.
      rewrite app_nil_r. by apply sublist_inserts_r.
    - auto.
    - auto.
    - intros s0 i t w r IH _ _. simpl. rewrite pagestarts_app, map_app. simpl.
      rewrite app_nil_r. by apply sublist_inserts_r.
    - intros s0 i t w resp urls IH _ _ _.
      destruct (fetched_result_fields t (Some resp)) as (n & st & -> & _).
      simpl. rewrite !pagestarts_app, map_app. simpl.
      rewrite app_nil_r. by apply sublist_app.
    - constructor. }
  split; [exact Hsub|]. eapply sublist_NoDup; [|exact Hsub].
  assert (Hinv : dedup_inv s).
  { eapply (exec_invariant dedup_inv); [apply step_dedup_inv| |exact Hrun].
    apply check_seed_dedup_inv. }
  destruct Hinv as [Hnd _]. unfold dispatched in Hnd. apply NoDup_app in Hnd. tauto.
Qed.

End CrawlProperties.

(** ** The extractor *)

Import Regex.

Local Open Scope string_scope.

(** *** Strings *)

Lemma string_app_cons (x : ascii) (a b : string) : String x a ++ b = String x (a ++ b).
Proof. reflexivity. Qed.

Lemma string_app_assoc (a b c : string) : (a ++ b) ++ c = a ++ (b ++ c).
Proof.
  induction a as [|x a IH]; [reflexivity|].
  rewrite !string_app_cons. f_equal. exact IH.
Qed.

Lemma string_length_app (a b : string) :
  String.length (a ++ b) = (String.length a + String.length b)%nat.
Proof.
  induction a as [|x a IH]; [reflexivity|].
  rewrite string_app_cons. simpl. f_equal. exact IH.
Qed.

Lemma take_app (a b : string) : JS.take (String.length a) (a ++ b) = a.
Proof.
  induction a as [|x a IH]; [by destruct b|].
  rewrite string_app_cons. simpl. f_equal. exact IH.
Qed.

Lemma consumed_app (pre s1 : string) : JS.consumed (pre ++ s1) s1 = pre.
Proof.
  unfold JS.consumed. rewrite string_length_app.
  replace (String.length pre + String.length s1 - String.length s1)%nat
    with (String.length pre) by lia.
  apply take_app.
Qed.

(** *** The matcher: a successful run went through its continuation *)

Section MatcherInversion.
Context {R : Type}.

Lemma star_inv (p : ascii -> bool) (s : string) (k : string -> option R) (x : R) :
  star p s k = Some x -> exists pre s1, s = pre ++ s1 /\ k s1 = Some x.
Proof.
  induction s as [|c s IH]; simpl.
  - intros H. exists "", "". auto.
  - destruct (p c).
    + unfold orElse. destruct (star p s k) as [y|] eqn:E.
      * intros [= ->]. destruct (IH eq_refl) as (pre & s1 & -> & Hk).
        exists (String c pre), s1. auto.
      * intros H. exists "", (String c s). auto.
    + intros H. exists "", (String c s). auto.
Qed.

Lemma lazy_star_inv (p : ascii -> bool) (s : string) (k : string -> option R) (x : R) :
  lazy_star p s k = Some x -> exists pre s1, s = pre ++ s1 /\ k s1 = Some x.
Proof.
  induction s as [|c s IH]; simpl; unfold orElse.
  - destruct (k "") eqn:E; [|discriminate]. intros [= ->]. exists "", "". auto.
  - destruct (k (String c s)) eqn:E.
    + intros [= ->]. exists "", (String c s). auto.
    + destruct (p c); [|discriminate]. intros H.
      destruct (IH H) as (pre & s1 & -> & Hk). exists (String c pre), s1. auto.
Qed.

Lemma plus_lazy_inv (p : ascii -> bool) (s : string) (k : string -> option R) (x : R) :
  plus_lazy p s k = Some x -> exists c pre s1, s = String c pre ++ s1 /\ k s1 = Some x.
Proof.
  destruct s as [|c s]; simpl; [discriminate|].
  destruct (p c); [|discriminate]. intros H.
  destruct (lazy_star_inv _ _ _ _ H) as (pre & s1 & -> & Hk). eauto.
Qed.

(** The continuation is entered at a suffix of the subject, with captures
    added for groups of the pattern only. *)
Lemma run_inv (r : regex) :
  forall (s : string) (caps : captures) (k : string -> captures -> option R) (x : R),
    run r s caps k = Some x ->
    exists pre s1 extra,
      s = pre ++ s1 /\ k s1 (extra ++ caps)%list = Some x
      /\ Forall (fun e => fst e ∈ groups r) extra.
Proof.
  induction r as [c|p| |r1 IH1 r2 IH2|r1 IH1 r2 IH2|n r1 IH1|r1 IH1|p|p];
    intros s caps k x; simpl.
  - destruct s as [|c' s]; [discriminate|]. destruct (Ascii.eqb c c'); [|discriminate].
    intros H. exists (String c' ""), s, []. auto.
  - destruct s as [|c' s]; [discriminate|]. destruct (p c'); [|discriminate].
    intros H. exists (String c' ""), s, []. auto.
  - intros H. exists "", s, []. auto.
  - intros H. apply IH1 in H as (pre1 & s1 & e1 & -> & H & He1).
    apply IH2 in H as (pre2 & s2 & e2 & -> & H & He2).
    exists (pre1 ++ pre2), s2, (e2 ++ e1)%list.
    split; [|split].
    + symmetry. apply string_app_assoc.
    + rewrite <- app_assoc. exact H.
    + apply Forall_app. split; eapply Forall_impl; eauto; simpl; intros; set_solver.
  - unfold orElse. destruct (run r1 s caps k) as [y|] eqn:E.
    + intros [= ->]. apply IH1 in E as (pre & s1 & e & -> & H & He).
      exists pre, s1, e. split; [done|]. split; [done|].
      eapply Forall_impl; eauto; simpl; intros; set_solver.
    + intros H. apply IH2 in H as (pre & s1 & e & -> & H & He).
      exists pre, s1, e. split; [done|]. split; [done|].
      eapply Forall_impl; eauto; simpl; intros; set_solver.
  - intros H. apply IH1 in H as (pre & s1 & e & -> & H & He).
    exists pre, s1, ((n, JS.consumed (pre ++ s1) s1) :: e). split; [done|]. split; [done|].
    constructor; [simpl; set_solver|].
    eapply Forall_impl; eauto; simpl; intros; set_solver.
  - unfold orElse.
    destruct (run r1 s caps _) as [y|] eqn:E.
    + intros [= ->]. apply IH1 in E as (pre & s1 & e & -> & H & He).
      destruct (String.length s1 =? String.length (pre ++ s1))%nat; [discriminate|].
      exists pre, s1, e. auto.
    + intros H. exists "", s, []. auto.
  - intros H. apply star_inv in H as (pre & s1 & -> & H). exists pre, s1, []. auto.
  - intros H. apply plus_lazy_inv in H as (c & pre & s1 & -> & H).
    exists (String c pre), s1, []. auto.
Qed.
End MatcherInversion.

Lemma run_Cat_inv {R : Type} (a b : regex) (s : string) (caps : captures)
      (k : string -> captures -> option R) (x : R) :
  run (Cat a b) s caps k = Some x ->
  exists pre s1 extra,
    s = pre ++ s1 /\ run b s1 (extra ++ caps)%list k = Some x
    /\ Forall (fun e => fst e ∈ groups a) extra.
Proof. simpl. apply run_inv. Qed.

Lemma run_Cat_capture_inv {R : Type} (n : nat) (p : ascii -> bool) (b : regex)
      (s : string) (caps : captures) (k : string -> captures -> option R) (x : R) :
  run (Cat (Group n (PlusLazy p)) b) s caps k = Some x ->
  exists c pre s1,
    s = String c pre ++ s1 /\ run b s1 ((n, String c pre) :: caps) k = Some x.
Proof.
  intros H.
  change (plus_lazy p s (fun s1 => run b s1 ((n, JS.consumed s s1) :: caps) k) = Some x) in H.
  apply plus_lazy_inv in H as (c & pre & s1 & -> & H).
  rewrite consumed_app in H. eauto.
Qed.

Lemma run_Star {R : Type} (p : ascii -> bool) (s : string) (caps : captures)
      (k : string -> captures -> option R) :
  run (Star p) s caps k = star p s (fun s1 => k s1 caps).
Proof. reflexivity. Qed.

Lemma Forall_in_nil {A B : Type} (f : A -> B) (l : list A) :
  Forall (fun e => f e ∈ @nil B) l -> l = [].
Proof.
  destruct l as [|e l]; [done|]. intros H.
  apply Forall_cons in H as [Hin _]. apply elem_of_nil in Hin. destruct Hin.
Qed.

Lemma capture_skip (n : nat) (g : string) (extra c : captures) :
  Forall (fun e => fst e <> n) extra ->
  capture n (extra ++ (n, g) :: c)%list = Some g.
Proof.
  unfold capture. induction extra as [|[m h] extra IH]; simpl; intros H.
  - rewrite Nat.eqb_refl. reflexivity.
  - inversion H as [|? ? Hm Hrest]; subst. simpl in Hm.
    destruct (Nat.eqb_spec m n); [done|]. apply IH, Hrest.
Qed.

Lemma no_line_terminator_app (a b : string) :
  StyleSpec.no_line_terminator (a ++ b) = true -> StyleSpec.no_line_terminator b = true.
Proof.
  induction a as [|x a IH]; [done|]. rewrite string_app_cons. simpl. intros H.
  apply andb_true_iff in H as [_ H]. auto.
Qed.

Lemma star_dot_all {R : Type} (s : string) (f : string -> R) :
  StyleSpec.no_line_terminator s = true ->
  star (fun c => negb (JS.is_line_terminator c)) s (fun rest => Some (f rest)) = Some (f "").
Proof.
  induction s as [|c s IH]; simpl; [done|]. intros H.
  apply andb_true_iff in H as [Hc H]. rewrite Hc, (IH H). reflexivity.
Qed.

(** A match of the [url(...)] pattern captures a non-empty group 2, and
    spans the whole value when the value holds no line terminator. *)
Lemma urlValueRegexp_match (v : string) (caps : captures) (rest : string) :
  exec_anchored Links.urlValueRegexp v = Some (caps, rest) ->
  (exists g, capture 2 caps = Some g /\ g <> "")
  /\ (StyleSpec.no_line_terminator v = true -> rest = "").
Proof.
  unfold exec_anchored, Links.urlValueRegexp. intros H.
  apply run_Cat_inv in H as (p1 & s1 & e1 & -> & H & He1).
  apply Forall_in_nil in He1 as ->.
  apply run_Cat_inv in H as (p2 & s2 & e2 & -> & H & He2).
  apply Forall_in_nil in He2 as ->.
  apply run_Cat_inv in H as (p3 & s3 & e3 & -> & H & He3).
  apply run_Cat_capture_inv in H as (c & p4 & s4 & -> & H).
  apply (run_Cat_inv (Opt (Group 3 Links.quoteAlt))) in H as (p5 & s5 & e5 & -> & H & He5).
  apply (run_Cat_inv (Lit ")")) in H as (p6 & s6 & e6 & -> & H & He6).
  apply Forall_in_nil in He6 as ->. rewrite run_Star in H. simpl app in H. split.
  - apply star_inv in H as (p7 & s7 & -> & [= <- <-]).
    exists (String c p4). split; [|discriminate].
    apply capture_skip. eapply Forall_impl; [exact He5|].
    intros e Hin. simpl in Hin. apply list_elem_of_singleton in Hin. lia.
  - intros Hnl.
    do 6 apply no_line_terminator_app in Hnl.
    rewrite (star_dot_all s6 (fun rest => (_, rest)) Hnl) in H.
    by injection H.
Qed.

(** *** The [style] attribute *)

Lemma split_nonempty (sep : ascii) (s : string) : JS.split sep s <> [].
Proof.
  destruct s as [|c s]; simpl; [done|].
  destruct (Ascii.eqb c sep); [done|]. by destruct (JS.split sep s).
Qed.

Lemma split_singleton (sep : ascii) (s b : string) : JS.split sep s = [b] -> b = s.
Proof.
  revert b. induction s as [|c s IH]; simpl; intros b.
  - by intros [= <-].
  - destruct (Ascii.eqb c sep).
    + intros [= _ H]. by apply split_nonempty in H.
    + destruct (JS.split sep s) as [|h t] eqn:E; [by intros [= <-]; apply split_nonempty in E|].
      intros [= <- ->]. f_equal. by apply IH.
Qed.

Lemma split_first_head (sep : ascii) (d : string) :
  fst (StyleSpec.split_first sep d) = default "" (head (JS.split sep d)).
Proof.
  induction d as [|c d IH]; simpl; [done|].
  destruct (Ascii.eqb c sep); [done|].
  destruct (StyleSpec.split_first sep d) as [a b]. simpl in *.
  destruct (JS.split sep d) as [|h t] eqn:E; [by apply split_nonempty in E|].
  simpl in *. by subst.
Qed.

Lemma split_first_two (sep : ascii) (d a b : string) :
  JS.split sep d = [a; b] -> StyleSpec.split_first sep d = (a, Some b).
Proof.
  revert a. induction d as [|c d IH]; simpl; intros a; [discriminate|].
  destruct (Ascii.eqb c sep).
  - intros [= <- H]. apply split_singleton in H as ->. reflexivity.
  - destruct (JS.split sep d) as [|h t] eqn:E; [discriminate|].
    intros [= <- ->]. by rewrite (IH h eq_refl).
Qed.

Lemma string_app_nil_r (s : string) : s ++ "" = s.
Proof. induction s as [|c s IH]; [done|]. rewrite string_app_cons. by f_equal. Qed.

Lemma truthy_true (s : string) : JS.truthy s = true <-> s <> "".
Proof. destruct s; simpl; split; congruence. Qed.

(** On a plain declaration the code yields what the specification's
    wording yields. *)
Lemma styleRule_agrees (d : string) :
  d <> "" -> StyleSpec.plain_declaration d ->
  exists out, Links.styleRule d = Some out
    /\ filter (fun l => JS.truthy l = true) [out] = StyleSpec.declaration d.
Proof.
  intros Hd Hplain. unfold Links.styleRule, StyleSpec.declaration.
  apply truthy_true in Hd. rewrite Hd. simpl negb. cbv iota.
  pose proof (split_first_head ":" d) as Hhead.
  destruct (StyleSpec.split_first ":" d) as [name value] eqn:Hsf. simpl in Hhead.
  rewrite <- Hhead. case_bool_decide as Hin.
  - rewrite Hhead in Hin. destruct (Hplain Hin) as (n & v & Hsplit & Hnl).
    rewrite (split_first_two _ _ _ _ Hsplit) in Hsf. injection Hsf as <- <-.
    rewrite Hsplit. simpl.
    unfold Links.replace_with_group2.
    destruct (exec_anchored Links.urlValueRegexp v) as [[caps rest]|] eqn:Hm.
    + destruct (urlValueRegexp_match v caps rest Hm) as [(g & Hg & Hne) Hrest].
      rewrite (Hrest Hnl), Hg. simpl. rewrite string_app_nil_r.
      eexists. split; [reflexivity|].
      rewrite filter_cons_True by by apply truthy_true. reflexivity.
    + eexists. split; [reflexivity|]. reflexivity.
  - eexists. split; [reflexivity|]. reflexivity.
Qed.

Lemma style_declarations_agree (l : list string) :
  Forall StyleSpec.plain_declaration l ->
  filter (fun val => JS.truthy val = true)
    <$> mapM Links.styleRule (filter (fun val => JS.truthy val = true) l)
  = Some (flat_map StyleSpec.declaration l).
Proof.
  induction 1 as [|d l Hd _ IH]; [reflexivity|].
  destruct d as [|c d].
  - rewrite filter_cons_False by (simpl; congruence). exact IH.
  - rewrite filter_cons_True by reflexivity.
    destruct (styleRule_agrees (String c d)) as (out & Hout & Hf); [done|exact Hd|].
    simpl mapM. rewrite Hout. simpl.
    destruct (mapM Links.styleRule _) as [k|]; [|discriminate]. simpl in *.
    injection IH as IH. f_equal. change (flat_map StyleSpec.declaration (String c d :: l))
      with (StyleSpec.declaration (String c d) ++ flat_map StyleSpec.declaration l)%list.
    rewrite <- Hf, <- IH. by rewrite (filter_app _ [out] k).
Qed.

(** Where every declaration is plain, [parseAttr], once the empty strings
    are dropped as [getLinks] does, agrees with the specification's wording. *)
Lemma parseAttr_style_plain (value : string) :
  Forall StyleSpec.plain_declaration (JS.split ";" value) ->
  filter (fun l => JS.truthy l = true) <$> Links.parseAttr "style" value
  = Some (StyleSpec.parseStyle value).
Proof. apply style_declarations_agree. Qed.

Lemma parseAttr_style_plain_example :
  Forall StyleSpec.plain_declaration
         (JS.split ";" "background: url('a.png') no-repeat; color: red;")
  /\ filter (fun l => JS.truthy l = true)
       <$> Links.parseAttr "style" "background: url('a.png') no-repeat; color: red;"
     = Some ["a.png"].
Proof.
  assert (H : Forall StyleSpec.plain_declaration
                     (JS.split ";" "background: url('a.png') no-repeat; color: red;")).
  { repeat constructor; intros Hin.
    - eexists _, _. split; reflexivity.
    - apply (bool_decide_pack _) in Hin. vm_compute in Hin. destruct Hin.
    - apply (bool_decide_pack _) in Hin. vm_compute in Hin. destruct Hin. }
  split; [exact H|]. rewrite (parseAttr_style_plain _ H). reflexivity.
Qed.

Local Open Scope list_scope.


(** A declaration yields a link only under [background] or
    [background-image]; the other declarations yield the empty string,
    which [getLinks] filters out. *)
Lemma styleRule_only_background (rules out : string) :
  Links.styleRule rules = Some out ->
  out <> "" ->
  JS.trim (default "" (head (JS.split ":" rules))) ∈ ["background"; "background-image"].
Proof.
  unfold Links.styleRule. intros H Hne.
  destruct (negb (JS.truthy rules)); [naive_solver|].
  case_bool_decide as Hin; [exact Hin|naive_solver].
Qed.

(** A declaration without [:] under a listed property makes [parseAttr]
    throw: [value] is undefined when [value.match] is called. *)
Lemma parseAttr_style_throws : Links.parseAttr "style" "background" = None.
Proof. reflexivity. Qed.

(** [srcset]: the descriptors are discarded. *)
Lemma parseAttr_srcset_example :
  Links.parseAttr "srcset" "a.png 1x, b.png 2x" = Some ["a.png"; "b.png"].
Proof. reflexivity. Qed.

(** C8: the value of a declaration is what stands between its first and
    its second [:], not all that follows the first; a [url(...)] holding an
    absolute URL is cut at the colon of its scheme and yields nothing,
    where the wording of the specification yields the URL. *)
Theorem parseAttr_style_cuts_at_second_colon :
  Links.parseAttr "style" "background: url(http://x/a.png)" = Some [""]
  /\ StyleSpec.parseStyle "background: url(http://x/a.png)" = ["http://x/a.png"]
  /\ Links.parseAttr "style" "background: url(a.png)" = Some ["a.png"]
  /\ StyleSpec.parseStyle "background: url(a.png)" = ["a.png"].
Proof. split_and!; vm_compute; reflexivity. Qed.

(** ** More on strings, patterns and the extractor *)

Local Open Scope string_scope.

Lemma prefix_cons (x y : ascii) (a b : string) :
  String.prefix (String x a) (String y b)
  = if ascii_dec x y then String.prefix a b else false.
Proof. reflexivity. Qed.

Lemma prefix_spec (a b : string) :
  String.prefix a b = true <-> exists post, b = a ++ post.
Proof.
  revert b. induction a as [|x a IH]; intros b.
  - split; [intros _; exists b; reflexivity|intros _; by destruct b].
  - destruct b as [|y b]; [split; [done|intros [post Hp]; discriminate]|].
    rewrite prefix_cons. destruct (ascii_dec x y) as [->|Hne].
    + rewrite IH. split; intros [post Hp]; exists post.
      * rewrite string_app_cons. by f_equal.
      * rewrite string_app_cons in Hp. by injection Hp.
    + split; [done|]. intros [post Hp]. rewrite string_app_cons in Hp.
      injection Hp as -> _. done.
Qed.

Lemma includes_nil (lit : string) :
  JS.includes lit "" = String.prefix lit "" || false.
Proof. reflexivity. Qed.

Lemma includes_cons (lit : string) (c : ascii) (s : string) :
  JS.includes lit (String c s) = String.prefix lit (String c s) || JS.includes lit s.
Proof. reflexivity. Qed.

(** [JS.includes] is the substring test. *)
Lemma includes_spec (lit s : string) :
  JS.includes lit s = true <-> exists pre post, s = pre ++ lit ++ post.
Proof.
  induction s as [|c s IH].
  - rewrite includes_nil, orb_false_r, prefix_spec. split.
    + intros [post Hp]. exists "", post. exact Hp.
    + intros (pre & post & Hp). destruct pre; [by exists post|discriminate].
  - rewrite includes_cons, orb_true_iff, IH, prefix_spec. split.
    + intros [[post Hp]|(pre & post & Hp)].
      * exists "", post. exact Hp.
      * exists (String c pre), post. rewrite string_app_cons. by f_equal.
    + intros (pre & post & Hp). destruct pre as [|x pre].
      * left. by exists post.
      * right. rewrite string_app_cons in Hp. injection Hp as _ Hp. eauto.
Qed.

(** X11: a response counts as HTML exactly when its content-type header
    is present and contains [text/html] or [application/xhtml+xml]
    somewhere, in that very case; parameters after it, or text before it,
    do not matter. *)
Theorem isHtml_iff_header_contains (response : Response) :
  isHtml response = true
  <-> exists contentType pre post,
        content_type response = Some contentType
        /\ (contentType = pre ++ "text/html" ++ post
            \/ contentType = pre ++ "application/xhtml+xml" ++ post).
Proof.
  unfold isHtml. rewrite orb_true_iff, !includes_spec.
  destruct (content_type response) as [ct|]; simpl.
  - split.
    + intros [(pre & post & H)|(pre & post & H)]; exists ct, pre, post; auto.
    + intros (ct' & pre & post & [= <-] & [H|H]); eauto.
  - split.
    + intros [(pre & post & H)|(pre & post & H)]; destruct pre; discriminate.
    + intros (ct' & pre & post & H & _). discriminate.
Qed.

(** *** The matcher is sound for the language of the pattern *)

Section MatcherSoundness.
Context {R : Type}.

Lemma star_sound (p : ascii -> bool) (s : string) (k : string -> option R) (x : R) :
  star p s k = Some x ->
  exists pre s1, s = pre ++ s1 /\ JS.every p pre = true /\ k s1 = Some x.
Proof.
  induction s as [|c s IH]; simpl.
  - intros H. exists "", "". auto.
  - destruct (p c) eqn:Hc.
    + unfold orElse. destruct (star p s k) as [y|] eqn:E.
      * intros [= ->]. destruct (IH eq_refl) as (pre & s1 & -> & Hp & Hk).
        exists (String c pre), s1. simpl. rewrite Hc, Hp. auto.
      * intros H. exists "", (String c s). auto.
    + intros H. exists "", (String c s). auto.
Qed.

Lemma lazy_star_sound (p : ascii -> bool) (s : string) (k : string -> option R) (x : R) :
  lazy_star p s k = Some x ->
  exists pre s1, s = pre ++ s1 /\ JS.every p pre = true /\ k s1 = Some x.
Proof.
  induction s as [|c s IH]; simpl; unfold orElse.
  - destruct (k "") eqn:E; [|discriminate]. intros [= ->]. exists "", "". auto.
  - destruct (k (String c s)) eqn:E.
    + intros [= ->]. exists "", (String c s). auto.
    + destruct (p c) eqn:Hc; [|discriminate]. intros H.
      destruct (IH H) as (pre & s1 & -> & Hp & Hk).
      exists (String c pre), s1. simpl. rewrite Hc, Hp. auto.
Qed.

Lemma plus_lazy_sound (p : ascii -> bool) (s : string) (k : string -> option R) (x : R) :
  plus_lazy p s k = Some x ->
  exists c pre s1,
    s = String c pre ++ s1 /\ p c = true /\ JS.every p pre = true /\ k s1 = Some x.
Proof.
  destruct s as [|c s]; simpl; [discriminate|].
  destruct (p c) eqn:Hc; [|discriminate]. intros H.
  destruct (lazy_star_sound _ _ _ _ H) as (pre & s1 & -> & Hp & Hk).
  exists c, pre, s1. auto.
Qed.

(** A successful run consumed a text of the pattern's language, then
    entered its continuation at what follows, with captures added for the
    groups of the pattern only. *)
Lemma run_sound (r : regex) :
  forall (s : string) (caps : captures) (k : string -> captures -> option R) (x : R),
    run r s caps k = Some x ->
    exists pre s1 extra,
      s = pre ++ s1 /\ matches r pre /\ k s1 (extra ++ caps)%list = Some x
      /\ Forall (fun e => fst e ∈ groups r) extra.
Proof.
  induction r as [c|p| |r1 IH1 r2 IH2|r1 IH1 r2 IH2|n r1 IH1|r1 IH1|p|p];
    intros s caps k x; simpl.
  - destruct s as [|c' s]; [discriminate|].
    destruct (Ascii.eqb_spec c c') as [<-|]; [|discriminate].
    intros H. exists (String c ""), s, []. split_and!; auto. constructor.
  - destruct s as [|c' s]; [discriminate|]. destruct (p c') eqn:Hp; [|discriminate].
    intros H. exists (String c' ""), s, []. split_and!; auto. by constructor.
  - intros H. exists "", s, []. split_and!; auto. constructor.
  - intros H. apply IH1 in H as (pre1 & s1 & e1 & -> & Hm1 & H & He1).
    apply IH2 in H as (pre2 & s2 & e2 & -> & Hm2 & H & He2).
    exists (pre1 ++ pre2), s2, (e2 ++ e1)%list. split_and!.
    + symmetry. apply string_app_assoc.
    + by constructor.
    + rewrite <- app_assoc. exact H.
    + apply Forall_app. split; eapply Forall_impl; eauto; simpl; intros; set_solver.
  - unfold orElse. destruct (run r1 s caps k) as [y|] eqn:E.
    + intros [= ->]. apply IH1 in E as (pre & s1 & e & -> & Hm & H & He).
      exists pre, s1, e. split_and!; auto; [by apply matches_Alt_l|].
      eapply Forall_impl; eauto; simpl; intros; set_solver.
    + intros H. apply IH2 in H as (pre & s1 & e & -> & Hm & H & He).
      exists pre, s1, e. split_and!; auto; [by apply matches_Alt_r|].
      eapply Forall_impl; eauto; simpl; intros; set_solver.
  - intros H. apply IH1 in H as (pre & s1 & e & -> & Hm & H & He).
    exists pre, s1, ((n, JS.consumed (pre ++ s1) s1) :: e).
    split_and!; auto; [by constructor|].
    constructor; [simpl; set_solver|].
    eapply Forall_impl; eauto; simpl; intros; set_solver.
  - unfold orElse.
    destruct (run r1 s caps _) as [y|] eqn:E.
    + intros [= ->]. apply IH1 in E as (pre & s1 & e & -> & Hm & H & He).
      destruct (String.length s1 =? String.length (pre ++ s1))%nat; [discriminate|].
      exists pre, s1, e. split_and!; auto. by apply matches_Opt_some.
    + intros H. exists "", s, []. split_and!; auto. apply matches_Opt_none.
  - intros H. apply star_sound in H as (pre & s1 & -> & Hp & H).
    exists pre, s1, []. split_and!; auto. by constructor.
  - intros H. apply plus_lazy_sound in H as (c & pre & s1 & -> & Hc & Hp & H).
    exists (String c pre), s1, []. split_and!; auto. by constructor.
Qed.

End MatcherSoundness.

Lemma run_Cat_sound {R : Type} (a b : regex) (s : string) (caps : captures)
      (k : string -> captures -> option R) (x : R) :
  run (Cat a b) s caps k = Some x ->
  exists pre s1 extra,
    s = pre ++ s1 /\ matches a pre /\ run b s1 (extra ++ caps)%list k = Some x
    /\ Forall (fun e => fst e ∈ groups a) extra.
Proof. simpl. apply run_sound. Qed.

Lemma matches_lits (l pre : string) : matches (lits l) pre -> pre = l.
Proof.
  revert pre. induction l as [|c l IH]; intros pre H; simpl in H.
  - by inversion H.
  - inversion H as [| | |r1 r2 a b Ha Hb| | | | | | |]; subst.
    inversion Ha; subst. rewrite (IH _ Hb). reflexivity.
Qed.

Lemma matches_quote (n : nat) (pre : string) :
  matches (Opt (Group n Links.quoteAlt)) pre ->
  pre = "" \/ pre = String Links.single_quote "" \/ pre = String Links.double_quote "".
Proof.
  intros H. inversion H as [| | | | | | |r|r a Ha| |]; subst; [by left|].
  inversion Ha as [| | | | | |m r a' Hq| | | |]; subst.
  unfold Links.quoteAlt in Hq.
  inversion Hq as [| | | |r1 r2 a1 H1|r1 r2 a2 H2| | | | |]; subst.
  - inversion H1; subst. auto.
  - inversion H2 as [| | | |r1' r2' a1 H1'|r1' r2' a2' H2'| | | | |]; subst.
    + inversion H1'; subst. auto.
    + inversion H2'; subst. auto.
Qed.

Lemma run_Cat_capture_sound {R : Type} (n : nat) (p : ascii -> bool) (b : regex)
      (s : string) (caps : captures) (k : string -> captures -> option R) (x : R) :
  run (Cat (Group n (PlusLazy p)) b) s caps k = Some x ->
  exists c pre s1,
    s = String c pre ++ s1 /\ p c = true /\ JS.every p pre = true
    /\ run b s1 ((n, String c pre) :: caps) k = Some x.
Proof.
  intros H.
  change (plus_lazy p s (fun s1 => run b s1 ((n, JS.consumed s s1) :: caps) k) = Some x) in H.
  apply plus_lazy_sound in H as (c & pre & s1 & -> & Hc & Hp & H).
  rewrite consumed_app in H. eauto 10.
Qed.

(** What a match of the [url(...)] pattern looks like: group 2 is the
    non-empty text, free of closing parentheses, that stands between
    [url(] with an optional quote and an optional quote with [)]. *)
Lemma urlValueRegexp_shape (v : string) (caps : captures) (rest : string) :
  exec_anchored Links.urlValueRegexp v = Some (caps, rest) ->
  exists pre q g q' mid,
    v = pre ++ "url(" ++ q ++ g ++ q' ++ ")" ++ mid ++ rest
    /\ capture 2 caps = Some g
    /\ g <> ""
    /\ JS.every (fun c => negb (Ascii.eqb c ")")) g = true
    /\ (q = "" \/ q = String Links.single_quote "" \/ q = String Links.double_quote "")
    /\ (q' = "" \/ q' = String Links.single_quote "" \/ q' = String Links.double_quote "")
    /\ JS.every (fun c => negb (JS.is_line_terminator c)) pre = true
    /\ JS.every (fun c => negb (JS.is_line_terminator c)) mid = true.
Proof.
  unfold exec_anchored, Links.urlValueRegexp. intros H.
  apply run_Cat_sound in H as (p1 & s1 & e1 & -> & Hm1 & H & He1).
  apply Forall_in_nil in He1 as ->.
  apply run_Cat_sound in H as (p2 & s2 & e2 & -> & Hm2 & H & He2).
  apply Forall_in_nil in He2 as ->. apply matches_lits in Hm2 as ->.
  apply run_Cat_sound in H as (p3 & s3 & e3 & -> & Hm3 & H & He3).
  apply matches_quote in Hm3.
  apply run_Cat_capture_sound in H as (c & p4 & s4 & -> & Hc & Hp4 & H).
  apply (run_Cat_sound (Opt (Group 3 Links.quoteAlt))) in H
    as (p5 & s5 & e5 & -> & Hm5 & H & He5).
  apply matches_quote in Hm5.
  apply (run_Cat_sound (Lit ")")) in H as (p6 & s6 & e6 & -> & Hm6 & H & He6).
  apply Forall_in_nil in He6 as ->. inversion Hm6; subst.
  rewrite run_Star in H. simpl app in H.
  apply star_sound in H as (p7 & s7 & -> & Hp7 & [= <- <-]).
  inversion Hm1; subst.
  exists p1, p3, (String c p4), p5, p7. split_and!; try done.
  - apply capture_skip. eapply Forall_impl; [exact He5|].
    intros e Hin. simpl in Hin. apply list_elem_of_singleton in Hin. lia.
  - simpl. by rewrite Hc, Hp4.
Qed.

(** X12: a non-empty token obtained from a [style] declaration comes from
    a [background] or [background-image] property, and is the argument of
    a [url(...)] in the text between the first and the second colon: the
    non-empty text without [)] between [url(], an optional quote, and an
    optional quote, [)], followed by whatever the value holds after the
    line on which the [url(...)] ends. *)
Theorem style_token_is_url_argument (rules out : string) :
  Links.styleRule rules = Some out ->
  out <> "" ->
  exists name value more pre q g q' mid rest,
    JS.split ":" rules = name :: value :: more
    /\ JS.trim name ∈ ["background"; "background-image"]
    /\ value = pre ++ "url(" ++ q ++ g ++ q' ++ ")" ++ mid ++ rest
    /\ out = g ++ rest
    /\ g <> ""
    /\ JS.every (fun c => negb (Ascii.eqb c ")")) g = true
    /\ (q = "" \/ q = String Links.single_quote "" \/ q = String Links.double_quote "")
    /\ (q' = "" \/ q' = String Links.single_quote "" \/ q' = String Links.double_quote "")
    /\ JS.every (fun c => negb (JS.is_line_terminator c)) pre = true
    /\ JS.every (fun c => negb (JS.is_line_terminator c)) mid = true.
Proof.
  unfold Links.styleRule. intros H Hne.
  destruct (negb (JS.truthy rules)); [naive_solver|].
  case_bool_decide as Hin; [|naive_solver].
  destruct (JS.split ":" rules) as [|name [|value more]] eqn:Hsplit;
    [discriminate|discriminate|]. simpl in H, Hin.
  unfold Links.replace_with_group2 in H.
  destruct (exec_anchored Links.urlValueRegexp value) as [[caps rest]|] eqn:Hm;
    simpl in H; [|naive_solver].
  destruct (urlValueRegexp_shape value caps rest Hm)
    as (pre & q & g & q' & mid & Hv & Hg & Hgne & Hgp & Hq & Hq' & Hpre & Hmid).
  rewrite Hg in H. simpl in H. injection H as <-.
  exists name, value, more, pre, q, g, q', mid, rest. split_and!; done.
Qed.

(** *** When [parseAttr] throws *)

Lemma mapM_None {A B : Type} (f : A -> option B) (l : list A) :
  mapM f l = None <-> exists x, x ∈ l /\ f x = None.
Proof.
  induction l as [|a l IH]; simpl.
  - split; [discriminate|]. intros (x & Hx & _). by apply elem_of_nil in Hx.
  - destruct (f a) as [b|] eqn:Ha; simpl.
    + destruct (mapM f l) as [k|]; simpl.
      * split; [discriminate|]. intros (x & [->|Hx]%elem_of_cons & Hf); [congruence|].
        assert (Some k = None) by (apply (proj2 IH); eauto). discriminate.
      * split; [|done]. intros _. destruct (proj1 IH eq_refl) as (x & Hx & Hf).
        exists x. split; [by apply list_elem_of_further|done].
    + split; [|done]. intros _. exists a. split; [apply list_elem_of_here|done].
Qed.

Lemma split_alone_iff (sep : ascii) (d : string) :
  JS.split sep d = [d] <-> JS.every (fun c => negb (Ascii.eqb c sep)) d = true.
Proof.
  induction d as [|c d IH]; simpl; [done|].
  destruct (Ascii.eqb c sep); simpl.
  - split; [discriminate|done].
  - rewrite <- IH. destruct (JS.split sep d) as [|h t] eqn:E.
    + by apply split_nonempty in E.
    + split; [by intros [= -> ->]|by intros [= -> ->]].
Qed.

Lemma styleRule_None (d : string) :
  Links.styleRule d = None
  <-> JS.every (fun c => negb (Ascii.eqb c ":")) d = true
      /\ JS.trim d ∈ ["background"; "background-image"].
Proof.
  unfold Links.styleRule. rewrite <- split_alone_iff. split.
  - destruct (negb (JS.truthy d)); [discriminate|].
    case_bool_decide as Hin; [|discriminate].
    destruct (JS.split ":" d) as [|name [|value more]] eqn:Hs.
    + by apply split_nonempty in Hs.
    + intros _. apply split_singleton in Hs as Hn. subst name. done.
    + simpl. by destruct (bool_decide _).
  - intros [Hs Hin]. rewrite Hs. simpl.
    destruct d as [|c d]; [apply (bool_decide_pack _) in Hin; by vm_compute in Hin|].
    simpl. by rewrite bool_decide_eq_true_2.
Qed.

(** X13: [parseAttr] throws in one situation only: the attribute is
    [style] and one of its declarations consists of the property name
    [background] or [background-image] (white space aside) with no colon;
    [value.match] is then called on [undefined]. *)
Theorem parseAttr_throws_iff (name value : string) :
  Links.parseAttr name value = None
  <-> name = "style"
      /\ exists d, d ∈ JS.split ";" value
           /\ JS.every (fun c => negb (Ascii.eqb c ":")) d = true
           /\ JS.trim d ∈ ["background"; "background-image"].
Proof.
  unfold Links.parseAttr.
  destruct (String.eqb_spec name "style") as [->|Hne].
  - rewrite mapM_None. split.
    + intros (d & Hd & Hnone). apply list_elem_of_filter in Hd as [_ Hd].
      apply styleRule_None in Hnone as [Hc Ht]. eauto.
    + intros (_ & d & Hd & Hc & Ht). exists d. split; [|by apply styleRule_None].
      apply list_elem_of_filter. split; [|done].
      destruct d; [apply (bool_decide_pack _) in Ht; by vm_compute in Ht|done].
  - destruct (String.eqb name "srcset"); split; try discriminate; intros [? _]; done.
Qed.

(** *** [srcset] *)

Lemma split_ws_first_no_space (s : string) :
  JS.every (fun c => negb (JS.is_white_space c)) (JS.split_ws_first s) = true.
Proof.
  induction s as [|c s IH]; simpl; [done|].
  destruct (JS.is_white_space c) eqn:Hc; simpl; [done|]. by rewrite Hc, IH.
Qed.

Lemma split_ws_first_prefix (s : string) : exists post, s = JS.split_ws_first s ++ post.
Proof.
  induction s as [|c s [post IH]]; simpl; [by exists ""|].
  destruct (JS.is_white_space c); [by exists (String c s)|].
  exists post. rewrite string_app_cons. by f_equal.
Qed.

Lemma trimEnd_prefix (s : string) : exists post, s = JS.trimEnd s ++ post.
Proof.
  induction s as [|c s [post IH]]; simpl; [by exists ""|].
  destruct (JS.trimEnd s) as [|c' t] eqn:E.
  - destruct (JS.is_white_space c); [by exists (String c s)|].
    exists post. rewrite string_app_cons. by f_equal.
  - exists post. rewrite string_app_cons. by f_equal.
Qed.

Lemma trimStart_cases (s : string) :
  (JS.trimStart s = "" /\ JS.every JS.is_white_space s = true)
  \/ (exists c t, JS.trimStart s = String c t /\ JS.is_white_space c = false
                  /\ JS.every JS.is_white_space s = false).
Proof.
  induction s as [|c s IH]; simpl; [by left|].
  destruct (JS.is_white_space c) eqn:Hc; simpl; [exact IH|].
  right. eauto.
Qed.

Lemma trimEnd_keeps_head (c : ascii) (t : string) :
  JS.is_white_space c = false -> exists t', JS.trimEnd (String c t) = String c t'.
Proof.
  intros Hc. simpl. destruct (JS.trimEnd t); [rewrite Hc|]; eauto.
Qed.

(** What one candidate of a [srcset] yields. *)
Lemma srcset_token (cand : string) :
  let tok := JS.split_ws_first (JS.trim cand) in
  JS.every (fun c => negb (JS.is_white_space c)) tok = true
  /\ (exists post, JS.trimStart cand = tok ++ post)
  /\ (tok = "" <-> JS.every JS.is_white_space cand = true).
Proof.
  simpl. split; [apply split_ws_first_no_space|]. unfold JS.trim. split.
  - destruct (trimEnd_prefix (JS.trimStart cand)) as [p1 H1].
    destruct (split_ws_first_prefix (JS.trimEnd (JS.trimStart cand))) as [p2 H2].
    exists (p2 ++ p1). rewrite <- string_app_assoc, <- H2. exact H1.
  - destruct (trimStart_cases cand) as [[-> Hb]|(c & t & -> & Hc & Hb)].
    + simpl. by rewrite Hb.
    + destruct (trimEnd_keeps_head c t Hc) as [t' ->]. simpl. rewrite Hc, Hb.
      split; discriminate.
Qed.

(** X14: [srcset] never throws and yields one token per comma-separated
    candidate, in order.  A token holds no white space, it is the start
    of its candidate's text (leading white space aside), and it is empty
    exactly when the candidate is blank. *)
Theorem srcset_one_token_per_candidate (value : string) :
  exists toks,
    Links.parseAttr "srcset" value = Some toks
    /\ Forall2 (fun cand tok =>
                  JS.every (fun c => negb (JS.is_white_space c)) tok = true
                  /\ (exists post, JS.trimStart cand = tok ++ post)
                  /\ (tok = "" <-> JS.every JS.is_white_space cand = true))
               (JS.split "," value) toks.
Proof.
  eexists. split; [reflexivity|].
  induction (JS.split "," value) as [|cand l IH]; simpl; constructor; [|exact IH].
  apply srcset_token.
Qed.

(** *** [isAbsoluteUrl] *)

Lemma star_skip {R : Type} (p : ascii -> bool) (a s : string)
      (k : string -> option R) (y : R) :
  JS.every p a = true -> star p s k = Some y -> star p (a ++ s) k = Some y.
Proof.
  induction a as [|c a IH]; [done|]. rewrite string_app_cons. simpl.
  intros [Hc Ha]%andb_true_iff Hs. rewrite Hc, (IH Ha Hs). reflexivity.
Qed.

Lemma windowsPath_iff (c : ascii) (s : string) :
  is_Some (exec_anchored Links.windowsPathRegexp (String c s))
  <-> Links.is_alpha c = true /\ exists post, s = String ":" (String "\" post).
Proof.
  unfold exec_anchored, Links.windowsPathRegexp. split.
  - intros [x Hx].
    apply run_Cat_sound in Hx as (p1 & s1 & e1 & Hs & Hm1 & Hx & _).
    apply run_Cat_sound in Hx as (p2 & s2 & e2 & -> & Hm2 & Hx & _).
    apply run_sound in Hx as (p3 & s3 & e3 & -> & Hm3 & Hx & _).
    inversion Hm1 as [|p c' Hc| | | | | | | | |]; subst.
    inversion Hm2; subst. inversion Hm3; subst.
    injection Hs as -> ->. eauto.
  - intros [Hc [post ->]]. simpl. rewrite Hc. simpl. eauto.
Qed.

(** X15: a URL counts as absolute exactly when it starts with a scheme (a
    letter, then letters, digits, [+], [-] or [.], then a colon), unless
    the scheme is a single letter followed by a backslash after the
    colon, which is a Windows path. *)
Theorem isAbsoluteUrl_iff (u : string) :
  Links.isAbsoluteUrl u = true
  <-> exists c scheme rest,
        u = String c (scheme ++ ":" ++ rest)
        /\ Links.is_alpha c = true
        /\ JS.every (fun c => Links.is_alpha c || Links.is_digit c || Ascii.eqb c "+"
                              || Ascii.eqb c "-" || Ascii.eqb c ".") scheme = true
        /\ ~ (scheme = "" /\ exists post, rest = String "\" post).
Proof.
  unfold Links.isAbsoluteUrl. split.
  - case_bool_decide as Hwin; [discriminate|]. intros Hs%bool_decide_eq_true.
    destruct Hs as [[caps rest] Hs]. unfold exec_anchored, Links.schemeRegexp in Hs.
    apply run_Cat_sound in Hs as (p1 & s1 & e1 & -> & Hm1 & Hs & _).
    apply run_Cat_sound in Hs as (p2 & s2 & e2 & -> & Hm2 & Hs & _).
    apply run_sound in Hs as (p3 & s3 & e3 & -> & Hm3 & Hs & _).
    inversion Hm1 as [|p c Hc| | | | | | | | |]; subst.
    inversion Hm2; subst. inversion Hm3; subst.
    exists c, p2, s3. split_and!; try done.
    intros [-> [post ->]]. apply Hwin.
    apply windowsPath_iff. split; [done|]. by exists post.
  - intros (c & scheme & rest & -> & Hc & Hsch & Hnw).
    rewrite bool_decide_eq_false_2.
    + apply bool_decide_eq_true.
      unfold exec_anchored, Links.schemeRegexp. simpl. rewrite Hc.
      erewrite star_skip; [eauto|exact Hsch|]. reflexivity.
    + intros [_ [post Hp]]%windowsPath_iff. destruct scheme as [|a scheme].
      * apply Hnw. split; [done|]. exists post.
        change (":" ++ rest) with (String ":" rest) in Hp. by injection Hp.
      * rewrite string_app_cons in Hp. injection Hp as -> _.
        simpl in Hsch. by vm_compute in Hsch.
Qed.

(** *** [getLinks] *)

Section GetLinks.

Variable URL_new : string -> option string -> option URL.
Variable cheerio_load : string -> list Links.Element.

(** What [parseLink] returns: the token as [link], and either the
    resolved URL without fragment or the error, never both. *)
Lemma parseLink_fields (lnk baseUrl : string) :
  let p := Links.parseLink URL_new lnk baseUrl in
  Links.link p = lnk
  /\ (is_Some (Links.url p) <-> Links.error p = None)
  /\ (is_Some (Links.url p) <-> is_Some (URL_new lnk (Some baseUrl)))
  /\ (forall u, Links.url p = Some u -> fragment u = None /\ href u = serialized u).
Proof.
  unfold Links.parseLink. destruct (URL_new lnk (Some baseUrl)) as [u|]; simpl.
  - split_and!; try done.
    intros u' [= <-]. unfold href. simpl. by rewrite string_app_nil_r.
  - split_and!; try done; split; intros H; try done; by destruct H.
Qed.

(** X16: when [getLinks] returns, all the links of the page were resolved
    against one base URL, which is the page's own unless the document has
    a [base] element with an [href].  Every record has a non-empty [link];
    it carries a URL exactly when it carries no error, exactly when the
    token resolves against that base; and a URL it carries has no
    fragment, so its [href] holds no [#] part. *)
Theorem getLinks_records (source baseUrl : string) (linksAttr : Links.AttributeRules)
        (parsed : list Links.ParsedUrl) :
  Links.getLinks URL_new cheerio_load source baseUrl linksAttr = Some parsed ->
  exists realBaseUrl,
    (Links.select ["base"] "href" (cheerio_load source) = [] -> realBaseUrl = baseUrl)
    /\ Forall (fun p =>
                 Links.link p <> ""
                 /\ p = Links.parseLink URL_new (Links.link p) realBaseUrl
                 /\ (is_Some (Links.url p) <-> Links.error p = None)
                 /\ (is_Some (Links.url p)
                     <-> is_Some (URL_new (Links.link p) (Some realBaseUrl)))
                 /\ (forall u, Links.url p = Some u ->
                       fragment u = None /\ href u = serialized u)) parsed.
Proof.
  unfold Links.getLinks.
  destruct (Links.collect (cheerio_load source) linksAttr) as [links|];
    [|discriminate]. simpl.
  set (base := match head (Links.select ["base"] "href" (cheerio_load source)) with
               | Some b =>
                   if JS.truthy (default "" (Links.attrib "href" b))
                   then Links.getBaseUrl URL_new (default "" (Links.attrib "href" b)) baseUrl
                   else Some baseUrl
               | None => Some baseUrl
               end).
  assert (Hnone : Links.select ["base"] "href" (cheerio_load source) = [] ->
                  base = Some baseUrl).
  { intros Hsel. unfold base. by rewrite Hsel. }
  destruct base as [realBaseUrl|]; [|discriminate]. simpl. intros [= <-].
  exists realBaseUrl. split; [intros Hsel; by injection (Hnone Hsel)|].
  apply Forall_forall. intros p Hp.
  apply list_elem_of_In, in_map_iff in Hp as (l & <- & Hl).
  apply list_elem_of_In, list_elem_of_filter in Hl as [Hl _].
  destruct (parseLink_fields l realBaseUrl) as (Hlink & Hone & Hres & Hfrag).
  rewrite Hlink. split_and!; try done. by apply truthy_true.
Qed.

(** [collect] throws exactly when [parseAttr] throws on the attribute of
    a selected element. *)
Lemma collect_None (doc : list Links.Element) (linksAttr : Links.AttributeRules) :
  Links.collect doc linksAttr = None
  <-> exists attr tags e,
        (attr, tags) ∈ linksAttr
        /\ e ∈ Links.select tags attr doc
        /\ Links.parseAttr attr (default "" (Links.attrib attr e)) = None.
Proof.
  unfold Links.collect. rewrite fmap_None, mapM_None. split.
  - intros ([attr tags] & Hin & Hnone). rewrite fmap_None, mapM_None in Hnone.
    destruct Hnone as (e & He & Hp). eauto 10.
  - intros (attr & tags & e & Hin & He & Hp). exists (attr, tags).
    split; [done|]. rewrite fmap_None, mapM_None. eauto.
Qed.

(** X17: a call of [getLinks] throws in three situations only.  The
    rules are missing, as in the call of [crawl] ([Object.keys] of
    undefined).  Or, the rules being given and made of plain names,
    [parseAttr] throws on the attribute of a selected element, or the
    first [base] element has a non-empty [href] that is not absolute and
    does not resolve against the page URL. *)
Theorem getLinks_throws_iff (source baseUrl : string)
        (linksAttr : option Links.AttributeRules) :
  from_option Links.plain_rules true linksAttr = true ->
  Links.getLinks_call URL_new cheerio_load source baseUrl linksAttr = None
  <-> linksAttr = None
      \/ (exists rules attr tags e,
            linksAttr = Some rules
            /\ (attr, tags) ∈ rules
            /\ e ∈ Links.select tags attr (cheerio_load source)
            /\ Links.parseAttr attr (default "" (Links.attrib attr e)) = None)
      \/ (exists rules b,
            linksAttr = Some rules
            /\ head (Links.select ["base"] "href" (cheerio_load source)) = Some b
            /\ default "" (Links.attrib "href" b) <> ""
            /\ Links.isAbsoluteUrl (default "" (Links.attrib "href" b)) = false
            /\ URL_new (default "" (Links.attrib "href" b)) (Some baseUrl) = None).
Proof.
  intros _. destruct linksAttr as [rules|]; simpl; [|split; auto].
  pose proof (collect_None (cheerio_load source) rules) as Hcollect.
  unfold Links.getLinks.
  destruct (Links.collect (cheerio_load source) rules) as [links|] eqn:Hc; simpl.
  - split.
    + intros Hnone. right. right.
      destruct (head (Links.select ["base"] "href" (cheerio_load source))) as [b|];
        [|discriminate].
      destruct (JS.truthy (default "" (Links.attrib "href" b))) eqn:Ht; [|discriminate].
      exists rules, b. split; [done|]. split; [done|]. split; [by apply truthy_true|].
      unfold Links.getBaseUrl in Hnone.
      destruct (Links.isAbsoluteUrl _); [discriminate|]. split; [done|].
      by destruct (URL_new _ _).
    + intros [Hn|[(r & attr & tags & e & [= <-] & Hl)|(r & b & [= <-] & Hb & Ht & Habs & Hu)]].
      * discriminate.
      * assert (Hx : Some links = None) by (apply Hcollect; eauto 10).
        discriminate.
      * rewrite Hb. apply truthy_true in Ht. rewrite Ht.
        unfold Links.getBaseUrl. rewrite Habs, Hu. reflexivity.
  - split; [|done]. intros _. right. left.
    destruct (proj1 Hcollect eq_refl) as (attr & tags & e & H). exists rules, attr, tags, e.
    by split.
Qed.

End GetLinks.

Local Open Scope list_scope.

(** ** The engine on the sample platform *)

(** The end-to-end example of the specification: a healthy root, a missing
    page and a mail address give OK, SKIPPED and BROKEN, and the run does
    not pass. *)
Lemma check_three_links :
  check Sample.RegExp_test Sample.URL_new Sample.getLinks
        Sample.options 0 true Sample.schedule
  = Some (Resolved
            {| passed := false;
               links :=
                 [ {| url := "http://x"; status := Some 200%Z; state := OK;
                      parent := None |};
                   {| url := "mailto:me@x"; status := None; state := SKIPPED;
                      parent := Some "http://x" |};
                   {| url := "http://x/a"; status := Some 404%Z; state := BROKEN;
                      parent := Some "http://x" |} ] |}
            Sample.ready).
Proof. vm_compute. reflexivity. Qed.

(** A page answered with 404 and an HTML content type is searched for
    links all the same: that a response was received is what counts, not
    its status. *)
Lemma broken_html_page_is_expanded :
  (fun s => (results s, queue s))
  <$> sample_exec [Start; Reply 0 (Some (Sample.html 404 Sample.page_three_links))]
                  (check_seed Sample.ready)
  = Some ([ {| url := "http://x"; status := Some 404%Z; state := BROKEN;
               parent := None |} ],
          [ {| opts_url := "http://x/a"; opts_parent := Some "http://x";
               opts_crawl := true |};
            {| opts_url := "http://x/a"; opts_parent := Some "http://x";
               opts_crawl := true |};
            {| opts_url := "mailto:me@x"; opts_parent := Some "http://x";
               opts_crawl := false |} ]).
Proof. vm_compute. reflexivity. Qed.

(** [<base href>] rewriting and fragment stripping. *)
Lemma getLinks_base_example :
  Links.getLinks Sample.URL_new Sample.cheerio_load
                 "<base href='/docs/'><a href='page.html#top'>" "http://x/a/b.html"
                 Links.getBaseLinkAttributes
  = Some [ {| Links.link := "page.html#top"; Links.error := None;
              Links.url := Some {| serialized := "http://x/docs/page.html"; host := "x";
                                   fragment := None |} |} ].
Proof. vm_compute. reflexivity. Qed.


(** C5: the root is requested with GET; the server answers 405 and the
    request is repeated with GET although no HEAD was sent.  The retry is
    not repeated on a second 405, and the task records one result, that of
    the retry. *)
Theorem retry_after_405_to_GET :
  requests <$> sample_exec [Start; Reply 0 (Some (Sample.plain 405))]
                           (check_seed Sample.ready)
  = Some [ {| method := GET; req_url := "http://x"; responseType := text |};
           {| method := GET; req_url := "http://x"; responseType := stream |} ]
  /\ (fun s => (requests s, results s))
     <$> sample_exec [Start; Reply 0 (Some (Sample.plain 405));
                      Reply 0 (Some (Sample.plain 405))]
                     (check_seed Sample.ready)
     = Some ([ {| method := GET; req_url := "http://x"; responseType := text |};
               {| method := GET; req_url := "http://x"; responseType := stream |} ],
             [ {| url := "http://x"; status := Some 405%Z; state := BROKEN;
                  parent := None |} ]).
Proof. split_and!; vm_compute; reflexivity. Qed.

(** C4, counterexample: the caller passes no [linksToSkip] and finds three
    patterns in the object when the run is over. *)
Lemma check_writes_linksToSkip :
  check Sample.RegExp_test Sample.URL_new Sample.getLinks
        Sample.options 0 true Sample.schedule
  = Some (Resolved (check_result (Sample.run Sample.schedule)) Sample.ready)
  /\ linksToSkip Sample.options = None
  /\ linksToSkip Sample.ready = Some ["^mailto:"; "^irc:"; "^data:"].
Proof. split_and!; vm_compute; reflexivity. Qed.

(** ** The theorems at concrete inputs *)

(** The reply that carries the root page of the sample site. *)
Lemma children_only_from_crawled_html_witness :
  sample_step (Reply 0 (Some (Sample.html 200 Sample.page_three_links)))
              (Sample.run [Start])
  = Some (Sample.run [Start; Reply 0 (Some (Sample.html 200 Sample.page_three_links))])
  /\ exists t w children evs,
       awaiting (Sample.run [Start]) !! 0%nat = Some (t, w)
       /\ queue (Sample.run [Start; Reply 0 (Some (Sample.html 200 Sample.page_three_links))])
          = queue (Sample.run [Start]) ++ children
       /\ events (Sample.run [Start; Reply 0 (Some (Sample.html 200 Sample.page_three_links))])
          = events (Sample.run [Start]) ++ evs
       /\ (children <> [] \/ (exists u, pagestart_event u ∈ evs) ->
           opts_crawl t = true
           /\ exists res, Some (Sample.html 200 Sample.page_three_links) = Some res
                          /\ isHtml res = true)
       /\ (opts_crawl t = false
           \/ Some (Sample.html 200 Sample.page_three_links) = None
           \/ (exists res, Some (Sample.html 200 Sample.page_three_links) = Some res
                           /\ isHtml res = false) ->
           children = [] /\ forall u, pagestart_event u ∉ evs).
Proof.
  assert (H : sample_step (Reply 0 (Some (Sample.html 200 Sample.page_three_links)))
                          (Sample.run [Start])
              = Some (Sample.run [Start;
                                  Reply 0 (Some (Sample.html 200 Sample.page_three_links))]))
    by (vm_compute; reflexivity).
  split; [exact H|].
  exact (children_only_from_crawled_html Sample.RegExp_test Sample.URL_new Sample.getLinks
           (Reply 0 (Some (Sample.html 200 Sample.page_three_links))) _ _ H).
Defined.

(** The request for the root is rejected: one BROKEN result with status 0. *)
Lemma state_follows_status_witness :
  awaiting (Sample.run [Start]) !! 0%nat = Some (Sample.root, first_request)
  /\ exists s', sample_step (Reply 0 None) (Sample.run [Start]) = Some s'
       /\ results s' = [ {| url := "http://x"; status := Some 0%Z; state := BROKEN;
                            parent := None |} ].
Proof.
  assert (H : awaiting (Sample.run [Start]) !! 0%nat = Some (Sample.root, first_request))
    by (vm_compute; reflexivity).
  split; [exact H|].
  destruct (state_follows_status Sample.RegExp_test Sample.URL_new Sample.getLinks
              0 None (Sample.run [Start]) Sample.root first_request H)
    as (s' & Hstep & [(res & _ & Hr & _)|(n & st & children & Hres & _ & _ & Hn & _ & Hbr)]).
  - discriminate Hr.
  - exists s'. split; [exact Hstep|]. rewrite Hres. subst n.
    assert (st = BROKEN) as -> by (apply Hbr; lia). reflexivity.
Defined.

(** The complete run over the page with three links. *)
Lemma each_url_recorded_once_witness :
  sample_exec Sample.schedule (check_seed Sample.ready)
  = Some (Sample.run Sample.schedule)
  /\ NoDup (map url (results (Sample.run Sample.schedule))).
Proof.
  assert (H : sample_exec Sample.schedule (check_seed Sample.ready)
              = Some (Sample.run Sample.schedule)) by (vm_compute; reflexivity).
  split; [exact H|].
  exact (proj1 (each_url_recorded_once Sample.RegExp_test Sample.URL_new Sample.getLinks
                  Sample.ready Sample.schedule _ H)).
Defined.

(** The complete run over the page with three links: one SKIPPED result, two fetched. *)
Lemma skipped_iff_no_status_witness :
  sample_exec Sample.schedule (check_seed Sample.ready)
  = Some (Sample.run Sample.schedule)
  /\ forall res, res ∈ results (Sample.run Sample.schedule) ->
       (state res = SKIPPED <-> status res = None)
       /\ (state res = OK \/ state res = BROKEN -> exists n, status res = Some n).
Proof.
  assert (H : sample_exec Sample.schedule (check_seed Sample.ready)
              = Some (Sample.run Sample.schedule)) by (vm_compute; reflexivity).
  split; [exact H|].
  exact (proj1 (skipped_iff_no_status Sample.RegExp_test Sample.URL_new Sample.getLinks
                  Sample.ready Sample.schedule _ H)).
Defined.

(** A complete run: the caller finds the built-in patterns in its options, nothing else changed. *)
Lemma options_change_only_at_startup_witness :
  check Sample.RegExp_test Sample.URL_new Sample.getLinks
        Sample.options 0 true Sample.schedule
  = Some (Resolved (check_result (Sample.run Sample.schedule)) Sample.ready)
  /\ (exists o', (Resolved (check_result (Sample.run Sample.schedule)) Sample.ready
                  = Rejected o'
                  \/ exists result,
                       Resolved (check_result (Sample.run Sample.schedule)) Sample.ready
                       = Resolved result o')
       /\ concurrency o' = None /\ port o' = None /\ recurse o' = Some true
       /\ linksToSkip o' = Some ["^mailto:"; "^irc:"; "^data:"]
       /\ path o' = "http://x")
  /\ forall a s s', sample_step a s = Some s' -> checkOptions s' = checkOptions s.
Proof.
  assert (H : check Sample.RegExp_test Sample.URL_new Sample.getLinks
                    Sample.options 0 true Sample.schedule
              = Some (Resolved (check_result (Sample.run Sample.schedule)) Sample.ready))
    by (vm_compute; reflexivity).
  split; [exact H|].
  exact (options_change_only_at_startup Sample.RegExp_test Sample.URL_new
           Sample.getLinks Sample.options 0 true Sample.schedule _ H).
Defined.

(** The mail address of the sample page, at the head of the queue: skipped, not requested. *)
Lemma skipped_url_is_never_requested_witness :
  check_setup Sample.options 0 true = Ready Sample.ready false
  /\ sample_exec [Start; Reply 0 (Some (Sample.html 200 Sample.page_three_links));
                  Start; Start]
                 (check_seed Sample.ready)
     = Some (Sample.run [Start; Reply 0 (Some (Sample.html 200 Sample.page_three_links));
                         Start; Start])
  /\ (forall q p,
        q ∈ requests (Sample.run [Start;
                                  Reply 0 (Some (Sample.html 200 Sample.page_three_links));
                                  Start; Start]) ->
        p ∈ ["^mailto:"; "^irc:"; "^data:"] ->
        Sample.RegExp_test p (req_url q) = Some false)
  /\ exists s',
       sample_step Start
         (Sample.run [Start; Reply 0 (Some (Sample.html 200 Sample.page_three_links));
                      Start; Start]) = Some s'
       /\ results s'
          = [ {| url := "http://x"; status := Some 200%Z; state := OK; parent := None |};
              {| url := "mailto:me@x"; status := None; state := SKIPPED;
                 parent := Some "http://x" |} ]
       /\ requests s'
          = [ {| method := GET; req_url := "http://x"; responseType := text |};
              {| method := GET; req_url := "http://x/a"; responseType := text |} ].
Proof.
  assert (H1 : check_setup Sample.options 0 true = Ready Sample.ready false)
    by (vm_compute; reflexivity).
  assert (H2 : sample_exec [Start;
                            Reply 0 (Some (Sample.html 200 Sample.page_three_links));
                            Start; Start]
                           (check_seed Sample.ready)
               = Some (Sample.run [Start;
                                   Reply 0 (Some (Sample.html 200 Sample.page_three_links));
                                   Start; Start])) by (vm_compute; reflexivity).
  split; [exact H1|]. split; [exact H2|].
  destruct (skipped_url_is_never_requested Sample.RegExp_test Sample.URL_new
              Sample.getLinks Sample.options Sample.ready 0 true false _ _ H1 H2)
    as (patterns & _ & -> & Hreq & Hgate).
  split; [exact Hreq|].
  destruct (Hgate {| opts_url := "mailto:me@x"; opts_parent := Some "http://x";
                     opts_crawl := false |} [])
    as (s' & Hstep & Hres & _ & Hrq & _).
  - vm_compute. reflexivity.
  - vm_compute. reflexivity.
  - apply (bool_decide_unpack _). vm_compute. exact I.
  - intros p Hp. simpl in Hp. rewrite !elem_of_cons, elem_of_nil in Hp.
    destruct Hp as [->|[->|[->|[]]]]; eexists; vm_compute; reflexivity.
  - exists "^mailto:". split; [apply list_elem_of_here|vm_compute; reflexivity].
  - exists s'. split; [exact Hstep|]. rewrite Hres, Hrq. split; vm_compute; reflexivity.
Defined.

(** ** The further properties at concrete inputs *)

(** The complete run over the page with three links. *)
Lemma sample_run_complete :
  sample_exec Sample.schedule (check_seed Sample.ready) = Some (Sample.run Sample.schedule).
Proof. vm_compute. reflexivity. Defined.

Lemma link_events_mirror_results_witness :
  sample_exec Sample.schedule (check_seed Sample.ready) = Some (Sample.run Sample.schedule)
  /\ link_events (events (Sample.run Sample.schedule))
     = results (Sample.run Sample.schedule).
Proof.
  split; [exact sample_run_complete|].
  exact (link_events_mirror_results Sample.RegExp_test Sample.URL_new Sample.getLinks
           Sample.ready Sample.schedule _ sample_run_complete).
Defined.

Lemma parents_are_expanded_pages_witness :
  sample_exec Sample.schedule (check_seed Sample.ready) = Some (Sample.run Sample.schedule)
  /\ forall res, res ∈ results (Sample.run Sample.schedule) ->
       match parent res with
       | None => url res = path Sample.ready
       | Some p =>
           pagestart_event p ∈ events (Sample.run Sample.schedule)
           /\ exists pres n, pres ∈ results (Sample.run Sample.schedule)
                             /\ url pres = p /\ status pres = Some n
       end.
Proof.
  split; [exact sample_run_complete|].
  exact (parents_are_expanded_pages Sample.RegExp_test Sample.URL_new Sample.getLinks
           Sample.ready Sample.schedule _ sample_run_complete).
Defined.

Lemma root_is_first_result_witness :
  sample_exec Sample.schedule (check_seed Sample.ready) = Some (Sample.run Sample.schedule)
  /\ (results (Sample.run Sample.schedule) = []
      \/ exists r rest, results (Sample.run Sample.schedule) = r :: rest
                        /\ url r = path Sample.ready /\ parent r = None).
Proof.
  split; [exact sample_run_complete|].
  exact (root_is_first_result Sample.RegExp_test Sample.URL_new Sample.getLinks
           Sample.ready Sample.schedule _ sample_run_complete).
Defined.

Lemma expanded_pages_are_in_scope_witness :
  sample_exec Sample.schedule (check_seed Sample.ready) = Some (Sample.run Sample.schedule)
  /\ forall u,
       pagestart_event u ∈ events (Sample.run Sample.schedule)
       \/ {| method := GET; req_url := u; responseType := text |}
          ∈ requests (Sample.run Sample.schedule) ->
       JS.startsWith u (path Sample.ready) = true
       /\ (recurse Sample.ready <> Some true -> u = path Sample.ready).
Proof.
  split; [exact sample_run_complete|].
  exact (expanded_pages_are_in_scope Sample.RegExp_test Sample.URL_new Sample.getLinks
           Sample.ready Sample.schedule _ sample_run_complete).
Defined.

Lemma passed_iff_all_skipped_or_2xx_witness :
  sample_exec Sample.schedule (check_seed Sample.ready) = Some (Sample.run Sample.schedule)
  /\ (passed (check_result (Sample.run Sample.schedule)) = true
      <-> forall res, res ∈ results (Sample.run Sample.schedule) ->
            status res = None \/ exists n, status res = Some n /\ (200 <= n < 300)%Z).
Proof.
  split; [exact sample_run_complete|].
  exact (passed_iff_all_skipped_or_2xx Sample.RegExp_test Sample.URL_new Sample.getLinks
           Sample.ready Sample.schedule _ sample_run_complete).
Defined.

Lemma at_most_two_requests_per_url_witness :
  sample_exec Sample.schedule (check_seed Sample.ready) = Some (Sample.run Sample.schedule)
  /\ (forall u, (length (filter (fun q => req_url q = u)
                                (requests (Sample.run Sample.schedule))) <= 2)%nat)
  /\ (forall q, q ∈ requests (Sample.run Sample.schedule) ->
        req_url q ∈ cache (Sample.run Sample.schedule)).
Proof.
  split; [exact sample_run_complete|].
  exact (at_most_two_requests_per_url Sample.RegExp_test Sample.URL_new Sample.getLinks
           Sample.ready Sample.schedule _ sample_run_complete).
Defined.

Lemma every_visited_url_has_a_result_witness :
  linksToSkip Sample.ready = Some ["^mailto:"; "^irc:"; "^data:"]
  /\ (forall p u, p ∈ ["^mailto:"; "^irc:"; "^data:"] ->
        is_Some (Sample.RegExp_test p u))
  /\ sample_exec Sample.schedule (check_seed Sample.ready)
     = Some (Sample.run Sample.schedule)
  /\ (forall u, u ∈ cache (Sample.run Sample.schedule)
                <-> u ∈ dispatched (Sample.run Sample.schedule))
  /\ (idle (Sample.run Sample.schedule) = true ->
      forall u, u ∈ cache (Sample.run Sample.schedule)
                <-> exists res, res ∈ results (Sample.run Sample.schedule)
                                /\ url res = u).
Proof.
  assert (H1 : linksToSkip Sample.ready = Some ["^mailto:"; "^irc:"; "^data:"])
    by reflexivity.
  assert (H2 : forall p u, p ∈ ["^mailto:"; "^irc:"; "^data:"] ->
                 is_Some (Sample.RegExp_test p u)).
  { intros p u Hp. rewrite !elem_of_cons, elem_of_nil in Hp.
    destruct Hp as [->|[->|[->|[]]]]; eexists; reflexivity. }
  split; [exact H1|]. split; [exact H2|]. split; [exact sample_run_complete|].
  exact (every_visited_url_has_a_result Sample.RegExp_test Sample.URL_new Sample.getLinks
           Sample.ready _ Sample.schedule _ H1 H2 sample_run_complete).
Defined.

Lemma skip_decision_depends_on_pattern_set_witness :
  linksToSkip Sample.ready = Some ["^mailto:"; "^irc:"; "^data:"]
  /\ linksToSkip (add_builtin_skips Sample.ready)
     = Some ["^mailto:"; "^irc:"; "^data:"; "^mailto:"; "^irc:"; "^data:"]
  /\ (forall p, p ∈ ["^mailto:"; "^irc:"; "^data:"]
                <-> p ∈ ["^mailto:"; "^irc:"; "^data:"; "^mailto:"; "^irc:"; "^data:"])
  /\ is_skipped Sample.RegExp_test Sample.ready "mailto:me@x"
     = is_skipped Sample.RegExp_test (add_builtin_skips Sample.ready) "mailto:me@x".
Proof.
  assert (H1 : linksToSkip Sample.ready = Some ["^mailto:"; "^irc:"; "^data:"])
    by reflexivity.
  assert (H2 : linksToSkip (add_builtin_skips Sample.ready)
               = Some ["^mailto:"; "^irc:"; "^data:"; "^mailto:"; "^irc:"; "^data:"])
    by reflexivity.
  assert (H3 : forall p, p ∈ ["^mailto:"; "^irc:"; "^data:"]
                 <-> p ∈ ["^mailto:"; "^irc:"; "^data:"; "^mailto:"; "^irc:"; "^data:"])
    by (intros p; rewrite !elem_of_cons, elem_of_nil; tauto).
  split; [exact H1|]. split; [exact H2|]. split; [exact H3|].
  exact (skip_decision_depends_on_pattern_set Sample.RegExp_test Sample.URL_new
           Sample.getLinks Sample.ready (add_builtin_skips Sample.ready) _ _ "mailto:me@x" H1 H2 H3).
Defined.

Lemma seed_url_is_http_witness :
  (0 <= 7 <= 1000)%Z
  /\ check_setup {| concurrency := None; port := Some 0%Z; path := "site";
                    recurse := None; linksToSkip := None |} 7 true
     = Ready {| concurrency := None; port := Some 0%Z; path := "http://localhost:5007";
                recurse := None;
                linksToSkip := Some ["^mailto:"; "^irc:"; "^data:"] |} true
  /\ JS.startsWith "http://localhost:5007" "http" = true.
Proof.
  assert (H1 : (0 <= 7 <= 1000)%Z) by lia.
  assert (H2 : check_setup {| concurrency := None; port := Some 0%Z; path := "site";
                              recurse := None; linksToSkip := None |} 7 true
               = Ready {| concurrency := None; port := Some 0%Z;
                          path := "http://localhost:5007"; recurse := None;
                          linksToSkip := Some ["^mailto:"; "^irc:"; "^data:"] |} true)
    by (vm_compute; reflexivity).
  split; [exact H1|]. split; [exact H2|].
  exact (proj1 (seed_url_is_http _ _ 7 true true H1 H2)).
Defined.

Lemma style_token_is_url_argument_witness :
  Links.styleRule "background: url('a.png') no-repeat" = Some "a.png"
  /\ "a.png" <> ""
  /\ exists name value more pre q g q' mid rest,
       JS.split ":" "background: url('a.png') no-repeat" = name :: value :: more
       /\ JS.trim name ∈ ["background"; "background-image"]
       /\ value = (pre ++ "url(" ++ q ++ g ++ q' ++ ")" ++ mid ++ rest)%string
       /\ "a.png" = (g ++ rest)%string
       /\ g <> ""
       /\ JS.every (fun c => negb (Ascii.eqb c ")")) g = true
       /\ (q = "" \/ q = String Links.single_quote "" \/ q = String Links.double_quote "")
       /\ (q' = "" \/ q' = String Links.single_quote ""
           \/ q' = String Links.double_quote "")
       /\ JS.every (fun c => negb (JS.is_line_terminator c)) pre = true
       /\ JS.every (fun c => negb (JS.is_line_terminator c)) mid = true.
Proof.
  assert (H1 : Links.styleRule "background: url('a.png') no-repeat" = Some "a.png")
    by (vm_compute; reflexivity).
  assert (H2 : "a.png" <> "") by discriminate.
  split; [exact H1|]. split; [exact H2|].
  exact (style_token_is_url_argument _ _ H1 H2).
Defined.

Lemma getLinks_records_witness :
  Links.getLinks Sample.URL_new Sample.cheerio_load Sample.page_bad_link "http://x"
                 Links.getBaseLinkAttributes
  = Some [ {| Links.link := "http://"; Links.error := Some Links.InvalidURL;
              Links.url := None |};
           {| Links.link := "/ok"; Links.error := None;
              Links.url := Some {| serialized := "http://x/ok"; host := "x";
                                   fragment := None |} |} ]
  /\ exists realBaseUrl,
       (Links.select ["base"] "href" (Sample.cheerio_load Sample.page_bad_link) = [] ->
        realBaseUrl = "http://x")
       /\ Forall (fun p => Links.link p <> "")
                 [ {| Links.link := "http://"; Links.error := Some Links.InvalidURL;
                      Links.url := None |};
                   {| Links.link := "/ok"; Links.error := None;
                      Links.url := Some {| serialized := "http://x/ok"; host := "x";
                                           fragment := None |} |} ].
Proof.
  assert (H : Links.getLinks Sample.URL_new Sample.cheerio_load Sample.page_bad_link
                             "http://x" Links.getBaseLinkAttributes
              = Some [ {| Links.link := "http://"; Links.error := Some Links.InvalidURL;
                          Links.url := None |};
                       {| Links.link := "/ok"; Links.error := None;
                          Links.url := Some {| serialized := "http://x/ok"; host := "x";
                                               fragment := None |} |} ])
    by (vm_compute; reflexivity).
  split; [exact H|].
  destruct (getLinks_records Sample.URL_new Sample.cheerio_load _ _ _ _ H)
    as (realBaseUrl & Hbase & Hall).
  exists realBaseUrl. split; [exact Hbase|].
  eapply Forall_impl; [exact Hall|]. intros p Hp. exact (proj1 Hp).
Defined.

Lemma skipped_results_match_a_pattern_witness :
  sample_exec Sample.schedule (check_seed Sample.ready) = Some (Sample.run Sample.schedule)
  /\ forall res, res ∈ results (Sample.run Sample.schedule) ->
       is_skipped Sample.RegExp_test Sample.ready (url res)
       = Some (bool_decide (state res = SKIPPED)).
Proof.
  split; [exact sample_run_complete|].
  exact (skipped_results_match_a_pattern Sample.RegExp_test Sample.URL_new Sample.getLinks
           Sample.ready Sample.schedule _ sample_run_complete).
Defined.

Lemma pagestarts_follow_results_witness :
  sample_exec Sample.schedule (check_seed Sample.ready) = Some (Sample.run Sample.schedule)
  /\ pagestarts (events (Sample.run Sample.schedule))
     `sublist_of` map url (results (Sample.run Sample.schedule))
  /\ NoDup (pagestarts (events (Sample.run Sample.schedule))).
Proof.
  split; [exact sample_run_complete|].
  exact (pagestarts_follow_results Sample.RegExp_test Sample.URL_new Sample.getLinks
           Sample.ready Sample.schedule _ sample_run_complete).
Defined.

(** The built-in rules on a page whose [base] element does not resolve
    against a page URL without a host. *)
Lemma getLinks_throws_iff_witness :
  from_option Links.plain_rules true (Some Links.getBaseLinkAttributes) = true
  /\ (Links.getLinks_call Sample.URL_new Sample.cheerio_load
                          "<base href='/docs/'><a href='page.html#top'>" "mailto:me@x"
                          (Some Links.getBaseLinkAttributes) = None
      <-> Some Links.getBaseLinkAttributes = None
          \/ (exists rules attr tags e,
                Some Links.getBaseLinkAttributes = Some rules
                /\ (attr, tags) ∈ rules
                /\ e ∈ Links.select tags attr
                        (Sample.cheerio_load "<base href='/docs/'><a href='page.html#top'>")
                /\ Links.parseAttr attr (default "" (Links.attrib attr e)) = None)
          \/ (exists rules b,
                Some Links.getBaseLinkAttributes = Some rules
                /\ head (Links.select ["base"] "href"
                           (Sample.cheerio_load "<base href='/docs/'><a href='page.html#top'>"))
                   = Some b
                /\ default "" (Links.attrib "href" b) <> ""
                /\ Links.isAbsoluteUrl (default "" (Links.attrib "href" b)) = false
                /\ Sample.URL_new (default "" (Links.attrib "href" b)) (Some "mailto:me@x")
                   = None)).
Proof.
  assert (H : from_option Links.plain_rules true (Some Links.getBaseLinkAttributes) = true)
    by (vm_compute; reflexivity).
  split; [exact H|].
  exact (getLinks_throws_iff Sample.URL_new Sample.cheerio_load
           "<base href='/docs/'><a href='page.html#top'>" "mailto:me@x"
           (Some Links.getBaseLinkAttributes) H).
Defined.
